(** * E-Shell ([apps/sh.c]): lexer, glob expander, planner and executor

    A shallow embedding of [shell_exec] and of the functions it calls
    ([variable_char], [is_number], [shell_find], [run_cmd]) together with the
    guard of the read-eval loop of [main] that feeds the returned status back
    into [$?].

    Conventions of the embedding.
    - A C string is the list of its characters before the terminating NUL.
    - The fixed-capacity arrays of [shell_exec] ([buffer_[512]], [argv[1024]]
      and the per-stage arrays of 100 entries) are modelled without their
      capacity: the development speaks about lines that fit in them.
    - The operating system (fork, execvp, waitpid, the directory listing, the
      environment) is a parameter of the development, and so are the
      functions of the line editor that record a line in the history.
    - An [int] is 32 bits wide: [atoi] wraps around on digits that exceed it. *)

From Stdlib Require Import String Ascii List ZArith Lia Bool Arith.
From Stdlib Require Import Permutation Sorted DecimalString.
Import ListNotations.

Local Open Scope list_scope.
Local Open Scope char_scope.

(** ** C strings *)

Definition cstring := list ascii.

Definition cs (s : string) : cstring := list_ascii_of_string s.
Arguments cs s%_string.

Definition NUL : ascii := "000".
Definition xFF : ascii := "255".
Definition dquote : ascii := "034".
Definition newline : ascii := "010".

Definition ceqb (a b : ascii) : bool := Ascii.eqb a b.

(** [!strcmp(a, b)] *)
Fixpoint streq (a b : cstring) : bool :=
  match a, b with
  | [], [] => true
  | x :: a', y :: b' => ceqb x y && streq a' b'
  | _, _ => false
  end.

(** [strstr(s, pre) == s] *)
Fixpoint starts_with (s pre : cstring) : bool :=
  match pre, s with
  | [], _ => true
  | x :: pre', y :: s' => ceqb x y && starts_with s' pre'
  | _ :: _, [] => false
  end.

(** [strchr(s, c) != NULL] for a character [c] other than NUL *)
Definition strchr (s : cstring) (c : ascii) : bool := existsb (ceqb c) s.

(** [strstr(s, pat)]: offset of the first occurrence of [pat] in [s] *)
Fixpoint strstr (s pat : cstring) : option nat :=
  if starts_with s pat then Some 0
  else match s with
       | [] => None
       | _ :: s' => option_map S (strstr s' pat)
       end.

(** The markers the lexer embeds in word text. *)
Definition PIPE_TOKEN : cstring := [xFF; xFF] ++ cs "PIPE" ++ [xFF; xFF].
Definition STAR_TOKEN : cstring := [xFF; xFF] ++ cs "STAR" ++ [xFF; xFF].
Definition WRITE_TOKEN : cstring := [xFF; xFF] ++ cs "WRITE" ++ [xFF; xFF].

(** ** Character classes *)

Definition in_range (lo hi c : ascii) : bool :=
  Nat.leb (nat_of_ascii lo) (nat_of_ascii c) && Nat.leb (nat_of_ascii c) (nat_of_ascii hi).

Definition isdigit (c : ascii) : bool := in_range "0" "9" c.

Definition isalpha (c : ascii) : bool := in_range "A" "Z" c || in_range "a" "z" c.

Definition variable_char (c : ascii) : bool :=
  if in_range "A" "Z" c then true
  else if in_range "a" "z" c then true
  else if in_range "0" "9" c then true
  else if ceqb c "_" then true
  else if ceqb c "?" then true
  else false.

Definition is_number (c : cstring) : bool := forallb isdigit c.

(** [isspace] in the C locale: the space and the characters 9 to 13. *)
Definition isspace (c : ascii) : bool := ceqb c " " || in_range "009" "013" c.

(** The value an [int] holds: 32 bits, two's complement. *)
Definition wrap_int (z : Z) : Z := ((z + 2 ^ 31) mod 2 ^ 32 - 2 ^ 31)%Z.

(** [atoi] of the C library (not part of [sh.c]): leading white space is
    skipped, a sign is read, then the digits up to the first other character.
    The value is accumulated in an [int]: digits that exceed it wrap around,
    as the machine's arithmetic does. *)
Fixpoint skip_space (s : cstring) : cstring :=
  match s with
  | [] => []
  | c :: s' => if isspace c then skip_space s' else s
  end.

Fixpoint atoi_digits (acc : Z) (s : cstring) : Z :=
  match s with
  | [] => acc
  | c :: s' =>
      if isdigit c
      then atoi_digits
             (wrap_int (10 * acc + Z.of_nat (nat_of_ascii c - nat_of_ascii "0"))) s'
      else acc
  end.

Definition atoi (s : cstring) : Z :=
  let s := skip_space s in
  if ceqb (hd NUL s) "-" then wrap_int (- atoi_digits 0 (tl s))
  else if ceqb (hd NUL s) "+" then atoi_digits 0 (tl s)
  else atoi_digits 0 s.

(** [sprintf(tmp, "%d", n)] *)
Definition sprintf_d (n : Z) : cstring :=
  cs (NilZero.string_of_int (Z.to_int n)).

(** ** Shell state *)

Record ShellState := {
  cwd : cstring;                       (* working directory of the process *)
  environ : list (cstring * cstring);  (* NAME=value entries *)
  last_ret : Z;
  shell_argv : list cstring;           (* shell_argc is its length *)
  shell_interactive : Z;
  child : Z                            (* tracked foreground child, 0 if none *)
}.

Definition shell_argc (sh : ShellState) : Z := Z.of_nat (length (shell_argv sh)).

Fixpoint getenv_in (env : list (cstring * cstring)) (name : cstring) : option cstring :=
  match env with
  | [] => None
  | (n, v) :: env' => if streq n name then Some v else getenv_in env' name
  end.

Definition getenv (sh : ShellState) (name : cstring) : option cstring :=
  getenv_in (environ sh) name.

(** ** Lexer *)

Inductive quote := QNone | QSingle | QDouble.

Definition quote_eqb (a b : quote) : bool :=
  match a, b with
  | QNone, QNone | QSingle, QSingle | QDouble, QDouble => true
  | _, _ => false
  end.

Record lex_state := {
  quoted : quote;        (* 0, a single quote or a double quote *)
  backtick : bool;       (* a backslash is pending *)
  buffer_ : cstring;     (* collected is its length *)
  have_star : bool;
  args : list cstring
}.

Definition lex_init : lex_state :=
  {| quoted := QNone; backtick := false; buffer_ := []; have_star := false; args := [] |}.

Definition collected (st : lex_state) : bool :=
  match buffer_ st with [] => false | _ => true end.

Definition set_quoted (q : quote) (st : lex_state) : lex_state :=
  {| quoted := q; backtick := backtick st; buffer_ := buffer_ st;
     have_star := have_star st; args := args st |}.

Definition set_backtick (b : bool) (st : lex_state) : lex_state :=
  {| quoted := quoted st; backtick := b; buffer_ := buffer_ st;
     have_star := have_star st; args := args st |}.

Definition set_buffer (b : cstring) (st : lex_state) : lex_state :=
  {| quoted := quoted st; backtick := backtick st; buffer_ := b;
     have_star := have_star st; args := args st |}.

Definition set_have_star (b : bool) (st : lex_state) : lex_state :=
  {| quoted := quoted st; backtick := backtick st; buffer_ := buffer_ st;
     have_star := b; args := args st |}.

(** [add_argument(args, buffer_)]: a copy of the buffer goes to the tail. *)
Definition add_argument (st : lex_state) : lex_state :=
  {| quoted := quoted st; backtick := backtick st; buffer_ := buffer_ st;
     have_star := have_star st; args := args st ++ [buffer_ st] |}.

(** label [_just_add] *)
Definition just_add (c : ascii) (st : lex_state) : lex_state :=
  set_buffer (buffer_ st ++ [c]) (set_backtick false st).

(** label [_new_arg] *)
Definition new_arg (st : lex_state) : lex_state :=
  let st := set_backtick false st in
  if collected st
  then set_have_star false (set_buffer [] (add_argument st))
  else st.

(** *** Reading a variable name

    [var] is an uninitialised automatic array: it holds a name only once a
    character has been stored, hence the [option]. *)

Definition var_store (var : option cstring) (c : ascii) : option cstring :=
  match var with
  | None => Some [c]
  | Some v => Some (v ++ [c])
  end.

(** The loop of the [${NAME}] form; returns the name and the rest of the line
    (positioned on the character that stopped the loop). *)
Fixpoint read_braced (p : cstring) (var : option cstring) (coll : nat)
  : option cstring * cstring :=
  match p with
  | [] => (var, [])
  | c :: p' =>
      if negb (ceqb c "}") && (coll <? 100)%nat
      then read_braced p' (var_store var c) (S coll)
      else (var, p)
  end.

(** The loop of the bare [$NAME] form.  The test [coll == 0] that would stop
    after a leading digit or [?] is evaluated after [coll++] and never holds. *)
Fixpoint read_bare (p : cstring) (var : option cstring) (coll : nat)
  : option cstring * cstring :=
  match p with
  | [] => (var, [])
  | c :: p' =>
      if variable_char c && (coll <? 100)%nat
      then
        let var := var_store var c in
        let coll := S coll in
        if (coll =? 0)%nat && (isdigit c || ceqb c "?")
        then (var, p')
        else read_bare p' var coll
      else (var, p)
  end.

Definition read_var (p : cstring) : option cstring * cstring :=
  if ceqb (hd NUL p) "{" then
    let '(var, rest) := read_braced (tl p) None 0 in
    if ceqb (hd NUL rest) "}" then (var, tl rest) else (var, rest)
  else read_bare p None 0.

Section Shell.

(** What the uninitialised [var] array holds when no character was stored. *)
Variable var_garbage : cstring.

(** The special cases and the environment lookup. *)
Definition resolve (sh : ShellState) (var : cstring) : option cstring :=
  if streq var (cs "?") then Some (sprintf_d (last_ret sh))
  else if is_number var then
    let a := atoi var in
    if (0 <=? a)%Z && (a <? shell_argc sh)%Z
    then nth_error (shell_argv sh) (Z.to_nat a)
    else None
  else getenv sh var.

Definition var_contents (var : option cstring) : cstring :=
  match var with
  | Some v => v
  | None => var_garbage
  end.

(** The tail of [case '$']: copy the value, if any, into the buffer. *)
Definition expand_var (sh : ShellState) (var : option cstring) (st : lex_state) : lex_state :=
  match resolve sh (var_contents var) with
  | Some c => set_buffer (buffer_ st ++ c) (set_backtick false st)
  | None => st
  end.

(** What one iteration of the scanning loop does with the character [c]
    and the rest [p'] of the line. *)
Inductive lex_jump :=
| Jnext (st : lex_state)                    (* goto _next *)
| Jcontinue (st : lex_state) (p : cstring)  (* continue, with p already advanced *)
| Jdone (st : lex_state).                   (* goto _done *)

Definition lex_char (sh : ShellState) (st : lex_state) (c : ascii) (p' : cstring) : lex_jump :=
  if ceqb c "$" then
    if quote_eqb (quoted st) QSingle then Jnext (just_add c st)
    else if backtick st then Jnext (just_add c st)
    else
      let '(var, rest) := read_var p' in
      Jcontinue (expand_var sh var st) rest
  else if ceqb c dquote then
    if quote_eqb (quoted st) QDouble then
      if backtick st then Jnext (just_add c st)
      else Jnext (set_quoted QNone st)
    else if quote_eqb (quoted st) QNone then Jnext (set_quoted QDouble st)
    else Jnext (just_add c st)
  else if ceqb c "'" then
    if quote_eqb (quoted st) QSingle then
      if backtick st then Jnext (just_add c st)
      else Jnext (set_quoted QNone st)
    else if quote_eqb (quoted st) QNone then Jnext (set_quoted QSingle st)
    else Jnext (just_add c st)
  else if ceqb c "*" then
    if negb (quote_eqb (quoted st) QNone) then Jnext (just_add c st)
    else if backtick st then Jnext (just_add c st)
    else if have_star st then Jnext (just_add c st)
    else Jnext (set_buffer (buffer_ st ++ STAR_TOKEN) (set_have_star true st))
  else if ceqb c "\" then
    if quote_eqb (quoted st) QSingle then Jnext (just_add c st)
    else if backtick st then Jnext (just_add c st)
    else Jnext (set_backtick true st)
  else if ceqb c " " then
    if backtick st then Jnext (just_add c st)
    else if quote_eqb (quoted st) QNone then Jnext (new_arg st)
    else Jnext (just_add c st)
  else if ceqb c newline then
    if quote_eqb (quoted st) QNone then Jdone st
    else Jnext (just_add c st)
  else if ceqb c "|" then
    if quote_eqb (quoted st) QNone && negb (backtick st) then
      let st := if collected st then add_argument st else st in
      Jnext (new_arg (set_buffer PIPE_TOKEN st))
    else Jnext (just_add c st)
  else if ceqb c ">" then
    if quote_eqb (quoted st) QNone && negb (backtick st) then
      let st := if collected st then add_argument st else st in
      Jnext (new_arg (set_buffer WRITE_TOKEN st))
    else Jnext (just_add c st)
  else if ceqb c "#" then
    if quote_eqb (quoted st) QNone && negb (backtick st) && negb (collected st)
    then Jdone st
    else Jnext (just_add c st)
  else
    (* default *)
    let st := if backtick st then set_buffer (buffer_ st ++ ["\"]) st else st in
    Jnext (just_add c st).

(** The loop [while ( *p )]; [None] only when the fuel runs out. *)
Fixpoint lex_scan (fuel : nat) (sh : ShellState) (st : lex_state) (p : cstring)
  : option lex_state :=
  match fuel with
  | O => None
  | S fuel' =>
      match p with
      | [] => Some st
      | c :: p' =>
          match lex_char sh st c p' with
          | Jnext st' => lex_scan fuel' sh st' p'
          | Jcontinue st' rest => lex_scan fuel' sh st' rest
          | Jdone st' => Some st'
          end
      end
  end.

Definition scan_line (sh : ShellState) (st : lex_state) (buffer : cstring) : option lex_state :=
  lex_scan (S (length buffer)) sh st buffer.

(** Outcome of the lexing phase. *)
Inductive lex_result :=
| LexArgs (l : list cstring)   (* the argument list handed to the planner *)
| LexUnterminated              (* "Unterminated quoted string", returns 127 *)
| LexStarved.                  (* a continuation line was needed and none was supplied *)

(** The outer [while (1)]: after [_done], an open quote asks for another line
    ([read_entry_continued] or [fgets], here the next element of [more]) which
    is scanned with the state kept. *)
Fixpoint lex_lines (sh : ShellState) (st : lex_state) (buffer : cstring)
    (more : list cstring) : lex_result :=
  match scan_line sh st buffer with
  | None => LexStarved
  | Some st' =>
      if negb (quote_eqb (quoted st') QNone) then
        if (shell_interactive sh =? 1)%Z || (shell_interactive sh =? 2)%Z then
          match more with
          | [] => LexStarved
          | l :: more' => lex_lines sh st' l more'
          end
        else LexUnterminated
      else if collected st' then LexArgs (args (add_argument st'))
      else LexArgs (args st')
  end.

Definition tokenize (sh : ShellState) (buffer : cstring) (more : list cstring) : lex_result :=
  lex_lines sh lex_init buffer more.

End Shell.

(** ** Glob expander and pipeline planner *)

(** *** Byte buffers

    The planner edits a token in place ([glob[0] = 0], [memmove]), so a token
    being globbed is the byte array of its allocation and the strings read
    back from it stop at the first NUL. *)

Definition bytes := list ascii.

(** The C string that starts at the head of a byte array. *)
Fixpoint c_str (b : bytes) : cstring :=
  match b with
  | [] => []
  | x :: b' => if ceqb x NUL then [] else x :: c_str b'
  end.

(** [b[n] = x] *)
Fixpoint poke {A : Type} (b : list A) (n : nat) (x : A) : list A :=
  match b, n with
  | [], _ => []
  | _ :: b', O => x :: b'
  | y :: b', S n' => y :: poke b' n' x
  end.

(** [memmove(&b[n], src, length src)] *)
Fixpoint blit (b : bytes) (n : nat) (src : bytes) : bytes :=
  match n, b with
  | O, _ => src ++ skipn (length src) b
  | S n', y :: b' => y :: blit b' n' src
  | S _, [] => []
  end.

(** The test applied to one directory entry [s]. *)
Definition glob_entry (has_before has_after : bool) (before after s : cstring) : bool :=
  if negb (ceqb (hd NUL s) ".") then
    if has_before && negb (starts_with s before) then false  (* goto _nope *)
    else
      let t := if has_before then skipn (length before) s else s in
      if has_after then
        if (length after <=? length t)%nat
        then streq after (skipn (length t - length after) t)
        else false
      else true
  else false.

(** The words that replace the token [c] whose marker was found at offset
    [glob]; [listing] is what [readdir] enumerates for the current directory. *)
Definition expand_glob (listing : list cstring) (c : cstring) (glob : nat) : list cstring :=
  let b := poke (poke (c ++ [NUL]) glob NUL) (S glob) NUL in
  let before := c_str b in
  let after := c_str (skipn (glob + 8) b) in
  let has_before := negb (length before =? 0)%nat in
  let has_after := negb (length after =? 0)%nat in
  if negb has_before || negb (strchr before "/") then
    let found := filter (glob_entry has_before has_after before after) listing in
    match found with
    | [] =>
        (* no matches *)
        let b := poke b glob "*" in
        let b := blit b (S glob) (after ++ [NUL]) in
        [c_str b]
    | _ => found
    end
  else
    (* directory globs not supported *)
    let b := poke b glob "*" in
    [c_str b].

Inductive oflag := O_WRONLY | O_CREAT | O_TRUNC | O_APPEND.

Definition upd {A : Type} (f : nat -> A) (k : nat) (v : A) : nat -> A :=
  fun j => if (j =? k)%nat then v else f j.

Record plan_state := {
  argv : list (option cstring);     (* argv[0..i), None for a NULL entry; i is its length *)
  cmdi : nat;
  arg_starts : nat -> option nat;   (* offset of a stage in argv *)
  output_files : nat -> option cstring;
  file_args : nat -> list oflag;    (* the flags or-ed together *)
  argcs : nat -> nat;
  next_is_file : nat
}.

Definition plan_init : plan_state :=
  {| argv := []; cmdi := 0;
     arg_starts := fun k => if (k =? 0)%nat then Some 0%nat else None;
     output_files := fun _ => None;
     file_args := fun _ => [];
     argcs := fun _ => 0%nat;
     next_is_file := 0 |}.

(** [argv[i] = s; i++; argcs[cmdi]++;] *)
Definition push_arg (ps : plan_state) (s : cstring) : plan_state :=
  {| argv := argv ps ++ [Some s]; cmdi := cmdi ps;
     arg_starts := arg_starts ps;
     output_files := output_files ps;
     file_args := file_args ps;
     argcs := upd (argcs ps) (cmdi ps) (S (argcs ps (cmdi ps)));
     next_is_file := next_is_file ps |}.

Definition set_redirect (ps : plan_state) (n : nat) (flags : list oflag) : plan_state :=
  {| argv := argv ps; cmdi := cmdi ps;
     arg_starts := arg_starts ps;
     output_files := output_files ps;
     file_args := upd (file_args ps) (cmdi ps) flags;
     argcs := argcs ps;
     next_is_file := n |}.

Definition set_output_file (ps : plan_state) (c : cstring) : plan_state :=
  {| argv := argv ps; cmdi := cmdi ps;
     arg_starts := arg_starts ps;
     output_files := upd (output_files ps) (cmdi ps) (Some c);
     file_args := file_args ps;
     argcs := argcs ps;
     next_is_file := next_is_file ps |}.

(** [argv[i] = 0; i++; cmdi++; arg_starts[cmdi] = &argv[i];] *)
Definition next_stage (ps : plan_state) : plan_state :=
  {| argv := argv ps ++ [None]; cmdi := S (cmdi ps);
     arg_starts := upd (arg_starts ps) (S (cmdi ps)) (Some (S (length (argv ps))));
     output_files := output_files ps;
     file_args := file_args ps;
     argcs := argcs ps;
     next_is_file := next_is_file ps |}.

(** The body of [foreach(node, args)]. *)
Definition plan_token (listing : list cstring) (ps : plan_state) (c : cstring) : plan_state :=
  if negb (next_is_file ps =? 0)%nat then
    if (next_is_file ps =? 1)%nat && streq c WRITE_TOKEN
    then set_redirect ps 2 [O_WRONLY; O_CREAT; O_APPEND]
    else set_output_file ps c
  else if streq c WRITE_TOKEN then set_redirect ps 1 [O_WRONLY; O_CREAT; O_TRUNC]
  else if streq c PIPE_TOKEN then next_stage ps
  else
    match strstr c STAR_TOKEN with
    | Some glob => fold_left push_arg (expand_glob listing c glob) ps
    | None => push_arg ps c
    end.

Definition plan (listing : list cstring) (args : list cstring) : plan_state :=
  fold_left (plan_token listing) args plan_init.

(** The NULL-terminated array that starts at [&argv[off]]. *)
Fixpoint until_null (a : list (option cstring)) : list cstring :=
  match a with
  | Some s :: a' => s :: until_null a'
  | _ => []
  end.


(** ** Builtin registry *)

(** A builtin runs on the state of the process that calls it.  It returns a
    status (with the state it leaves), ends the process with [exit], or
    dereferences a null [argv] entry. *)
Inductive handler_result :=
| HReturn (ret : Z) (sh : ShellState)
| HExit (code : Z)
| HUndefined.

(** [uint32_t ( * )(int argc, char ** argv)] *)
Definition shell_command_t := nat -> list (option cstring) -> ShellState -> handler_result.

Record command := {
  string_ : cstring;
  func : option shell_command_t;   (* None for the names found on the search path *)
  desc : option cstring
}.

Fixpoint shell_find (commands : list command) (str : cstring) : option shell_command_t :=
  match commands with
  | [] => None
  | c :: rest => if streq str (string_ c) then func c else shell_find rest str
  end.

(** Conversion of the handler's [uint32_t] to the [int] that [shell_exec] returns. *)
Definition int_of_uint32 (r : Z) : Z :=
  let m := (r mod 2 ^ 32)%Z in
  if (m <? 2 ^ 31)%Z then m else (m - 2 ^ 32)%Z.

Definition set_cwd (p : cstring) (sh : ShellState) : ShellState :=
  {| cwd := p; environ := environ sh; last_ret := last_ret sh;
     shell_argv := shell_argv sh; shell_interactive := shell_interactive sh;
     child := child sh |}.

Definition set_environ (e : list (cstring * cstring)) (sh : ShellState) : ShellState :=
  {| cwd := cwd sh; environ := e; last_ret := last_ret sh;
     shell_argv := shell_argv sh; shell_interactive := shell_interactive sh;
     child := child sh |}.

Definition set_last_ret (r : Z) (sh : ShellState) : ShellState :=
  {| cwd := cwd sh; environ := environ sh; last_ret := r;
     shell_argv := shell_argv sh; shell_interactive := shell_interactive sh;
     child := child sh |}.

Definition set_child (c : Z) (sh : ShellState) : ShellState :=
  {| cwd := cwd sh; environ := environ sh; last_ret := last_ret sh;
     shell_argv := shell_argv sh; shell_interactive := shell_interactive sh;
     child := c |}.

Section Builtins.

(** The file system as [chdir] sees it, and the cached user name. *)
Variable is_directory : cstring -> bool.
Variable username : cstring.

(** [chdir(path) == 0]; the new working directory is recorded as the path given. *)
Definition chdir (path : option cstring) (sh : ShellState) : option ShellState :=
  match path with
  | Some p => if is_directory p then Some (set_cwd p sh) else None
  | None => None
  end.

Definition shell_cmd_cd : shell_command_t := fun argc argv sh =>
  let target :=
    if (1 <? argc)%nat then nth 1%nat argv None
    else match getenv sh (cs "HOME") with
         | Some home => Some home
         | None => Some (cs "/home/" ++ username)
         end in
  match chdir target sh with
  | Some sh' => HReturn 0 sh'
  | None => HReturn 1 sh     (* cd_error *)
  end.

Fixpoint split_eq (s : cstring) : option (cstring * cstring) :=
  match s with
  | [] => None
  | c :: s' =>
      if ceqb c "=" then Some ([], s')
      else match split_eq s' with
           | Some (n, v) => Some (c :: n, v)
           | None => None
           end
  end.

Fixpoint setenv_in (env : list (cstring * cstring)) (n v : cstring) : list (cstring * cstring) :=
  match env with
  | [] => [(n, v)]
  | (n', v') :: env' =>
      if streq n' n then (n, v) :: env' else (n', v') :: setenv_in env' n v
  end.

(** [putenv("NAME=value")]; a string without [=] leaves the environment as it is. *)
Definition putenv (s : cstring) (sh : ShellState) : ShellState :=
  match split_eq s with
  | Some (n, v) => set_environ (setenv_in (environ sh) n v) sh
  | None => sh
  end.

Definition shell_cmd_export : shell_command_t := fun argc argv sh =>
  if (1 <? argc)%nat then
    match nth 1%nat argv None with
    | Some s => HReturn 0 (putenv s sh)
    | None => HUndefined
    end
  else HReturn 0 sh.

Definition shell_cmd_exit : shell_command_t := fun argc argv sh =>
  if (1 <? argc)%nat then
    match nth 1%nat argv None with
    | Some s => HExit (atoi s)
    | None => HUndefined
    end
  else HExit 0.

(** [help] and [history] only print. *)
Definition shell_cmd_help : shell_command_t := fun _ _ sh => HReturn 0 sh.
Definition shell_cmd_history : shell_command_t := fun _ _ sh => HReturn 0 sh.

Definition install_commands : list command :=
  [ {| string_ := cs "cd"; func := Some shell_cmd_cd; desc := Some (cs "change directory") |};
    {| string_ := cs "exit"; func := Some shell_cmd_exit; desc := Some (cs "exit the shell") |};
    {| string_ := cs "export"; func := Some shell_cmd_export;
       desc := Some (cs "set environment variables") |};
    {| string_ := cs "help"; func := Some shell_cmd_help;
       desc := Some (cs "display this help text") |};
    {| string_ := cs "history"; func := Some shell_cmd_history;
       desc := Some (cs "list command history") |} ].

End Builtins.

(** ** Processes *)

Inductive stdin_src := StdinInherited | StdinPipe (k : nat).

Inductive stdout_dst :=
| StdoutInherited
| StdoutPipe (k : nat)
| StdoutFile (path : cstring) (flags : list oflag).   (* open(path, flags, 0666) *)

(** How a program ends. *)
Inductive outcome := Exited (code : Z) | Signaled (sig : Z).

(** A child of the shell, with the status [waitpid] will store for it. *)
Record child_proc := {
  c_pid : Z;
  c_stdin : stdin_src;
  c_stdout : stdout_dst;
  c_args : list cstring;
  c_status : Z
}.

Record World := {
  w_children : list child_proc;   (* children not yet reaped *)
  w_next_pid : Z;
  w_pipes : nat;                  (* pipes created so far *)
  w_tty_pgrp : Z;
  w_shell_pid : Z                 (* getpid() *)
}.

(** What successive calls of [waitpid(-1, ...)] meet: the kernel hands over
    some child (the [k]-th of those left, counted cyclically), or the call is
    interrupted by a signal. *)
Inductive wait_event := WReap (k : nat) | WIntr.

Fixpoint remove_nth {A : Type} (k : nat) (l : list A) : list A :=
  match l, k with
  | [], _ => []
  | _ :: l', O => l'
  | x :: l', S k' => x :: remove_nth k' l'
  end.

(** The [do ... while] around [waitpid]: [ret_code] is overwritten by every
    child reaped; the loop ends when no child is left (ECHILD).  When the
    schedule is used up the children left are handed over in list order. *)
Fixpoint reap_loop (sched : list wait_event) (cs : list child_proc) (ret_code : Z)
  : Z * list child_proc :=
  match cs with
  | [] => (ret_code, [])
  | c0 :: _ =>
      match sched with
      | WIntr :: sched' => reap_loop sched' cs ret_code
      | WReap k :: sched' =>
          let n := (k mod length cs)%nat in
          reap_loop sched' (remove_nth n cs) (c_status (nth n cs c0))
      | [] => (fold_left (fun _ c => c_status c) cs ret_code, [])
      end
  end.

Inductive exec_result :=
| Returned (ret : Z) (sh : ShellState) (w : World)
| ShellExit (code : Z)     (* a builtin called exit() in the shell itself *)
| Undefined                (* a null pointer is dereferenced *)
| Starved.                 (* a continuation line was needed and none was supplied *)

Definition obind {A B : Type} (o : option A) (k : A -> option B) : option B :=
  match o with
  | Some a => k a
  | None => None
  end.

Notation "' p <- o ;; k" := (obind o (fun p => k))
  (at level 60, p pattern, o at next level, right associativity).

Section Executor.

Variable shell_commands : list command.

(** Modelled from the spec: the program loader and the kernel are not part of
    [sh.c].  [execvp] answers [None] when no such program exists (the call
    returns in the child) and otherwise how the program, run in the child
    with that state and those descriptors, ends. *)
Variable execvp : ShellState -> stdin_src -> stdout_dst -> list cstring -> option outcome.

(** Modelled from the spec: the status [waitpid] stores is the program's own
    exit code, or a signal-derived code ([signal_code]) when a signal ended it. *)
Variable signal_code : Z -> Z.

Definition wait_status (o : outcome) : Z :=
  match o with
  | Exited code => code
  | Signaled sig => signal_code sig
  end.

(** [run_cmd(args)] in a child: the status the child ends with. *)
Definition run_cmd (sh : ShellState) (cin : stdin_src) (cout : stdout_dst)
    (a : list (option cstring)) : option Z :=
  match a with
  | Some name :: _ =>
      match execvp sh cin cout (until_null a) with
      | Some o => Some (wait_status o)
      | None =>
          match shell_find shell_commands name with
          | Some func =>
              match func (length (until_null a)) a sh with
              | HReturn i _ => Some (wait_status (Exited (int_of_uint32 i)))
              | HExit code => Some (wait_status (Exited code))
              | HUndefined => None
              end
          | None => Some (wait_status (Exited 127))
          end
      end
  | _ => None
  end.

(** [fork()] followed, in the child, by the descriptor set-up and [run_cmd]. *)
Definition fork_run (sh : ShellState) (w : World) (cin : stdin_src) (cout : stdout_dst)
    (a : option (list (option cstring))) : option (Z * World) :=
  ' a <- a ;;
  ' status <- run_cmd sh cin cout a ;;
  Some (w_next_pid w,
        {| w_children := w_children w ++
             [{| c_pid := w_next_pid w; c_stdin := cin; c_stdout := cout;
                 c_args := until_null a; c_status := status |}];
           w_next_pid := (w_next_pid w + 1)%Z;
           w_pipes := w_pipes w;
           w_tty_pgrp := w_tty_pgrp w;
           w_shell_pid := w_shell_pid w |}).

(** [pipe(fds)] *)
Definition pipe (w : World) : nat * World :=
  (w_pipes w,
   {| w_children := w_children w; w_next_pid := w_next_pid w;
      w_pipes := S (w_pipes w); w_tty_pgrp := w_tty_pgrp w;
      w_shell_pid := w_shell_pid w |}).

Definition tcsetpgrp (pgrp : Z) (w : World) : World :=
  {| w_children := w_children w; w_next_pid := w_next_pid w;
     w_pipes := w_pipes w; w_tty_pgrp := pgrp;
     w_shell_pid := w_shell_pid w |}.

Definition set_children (cs : list child_proc) (w : World) : World :=
  {| w_children := cs; w_next_pid := w_next_pid w;
     w_pipes := w_pipes w; w_tty_pgrp := w_tty_pgrp w;
     w_shell_pid := w_shell_pid w |}.

(** [arg_starts[k]] as a pointer into the final [argv]. *)
Definition stage (ps : plan_state) (a : list (option cstring)) (k : nat)
  : option (list (option cstring)) :=
  option_map (fun off => skipn off a) (arg_starts ps k).

(** The redirection applied by the child of stage [k]. *)
Definition redirect (ps : plan_state) (k : nat) : stdout_dst :=
  match output_files ps k with
  | Some f => StdoutFile f (file_args ps k)
  | None => StdoutInherited
  end.

(** The loop [for (j = 1; j < cmdi; ++j)]. *)
Fixpoint spawn_middle (ps : plan_state) (a : list (option cstring)) (sh : ShellState)
    (js : list nat) (last_output : nat) (w : World) : option (nat * World) :=
  match js with
  | [] => Some (last_output, w)
  | j :: js' =>
      let '(tmp_out, w) := pipe w in
      ' (_, w) <- fork_run sh w (StdinPipe last_output) (StdoutPipe tmp_out) (stage ps a j) ;;
      spawn_middle ps a sh js' tmp_out w
  end.

(** The branch [cmdi > 0]: returns [child_pid] (the first fork) and the world. *)
Definition spawn_pipeline (ps : plan_state) (a : list (option cstring)) (sh : ShellState)
    (w : World) : option (Z * World) :=
  let '(last_output, w) := pipe w in
  ' (child_pid, w) <- fork_run sh w StdinInherited (StdoutPipe last_output) (stage ps a 0) ;;
  ' (last_output, w) <- spawn_middle ps a sh (seq 1 (cmdi ps - 1)) last_output w ;;
  ' (_, w) <- fork_run sh w (StdinPipe last_output) (redirect ps (cmdi ps)) (stage ps a (cmdi ps)) ;;
  Some (child_pid, w).

(** From [tcsetpgrp(STDIN_FILENO, child_pid)] to the end of [shell_exec]. *)
Definition wait_children (sched : list wait_event) (nowait : bool) (child_pid : Z)
    (sh : ShellState) (w : World) : exec_result :=
  let w := tcsetpgrp child_pid w in
  if negb nowait then
    let '(ret_code, remaining) := reap_loop sched (w_children w) 0 in
    Returned ret_code (set_child 0 sh) (tcsetpgrp (w_shell_pid w) (set_children remaining w))
  else
    Returned 0 sh (tcsetpgrp (w_shell_pid w) w).

(** [argv[tokenid-1]] once [argv[i] = NULL] is stored. *)
Definition last_arg (ps : plan_state) : option cstring :=
  nth (length (argv ps) - 1) (argv ps ++ [None]) None.

(** [nowait = !strcmp(argv[tokenid-1], "&")] *)
Definition nowait (ps : plan_state) : bool :=
  match last_arg ps with
  | Some last => streq last (cs "&")
  | None => false
  end.

(** [argv] as the processes get it: NULL-terminated, the trailing [&] nulled. *)
Definition final_argv (ps : plan_state) : list (option cstring) :=
  let a := argv ps ++ [None] in
  if nowait ps then poke a (length (argv ps) - 1) None else a.

(** [shell_exec] from [argv[i] = NULL] on. *)
Definition execute (sched : list wait_event) (ps : plan_state) (sh : ShellState) (w : World)
  : exec_result :=
  if (length (argv ps) =? 0)%nat then Returned (-1) sh w
  else
    match last_arg ps with
    | None => Undefined
    | Some _ =>
        let a := final_argv ps in
        if (0 <? cmdi ps)%nat then
          match spawn_pipeline ps a sh w with
          | Some (child_pid, w) => wait_children sched (nowait ps) child_pid sh w
          | None => Undefined
          end
        else
          match hd None a with
          | None => Undefined
          | Some name =>
              match shell_find shell_commands name with
              | Some func =>
                  match func (argcs ps 0%nat) a sh with
                  | HReturn r sh' => Returned (int_of_uint32 r) sh' w
                  | HExit code => ShellExit code
                  | HUndefined => Undefined
                  end
              | None =>
                  match fork_run sh w StdinInherited (redirect ps (cmdi ps)) (stage ps a 0) with
                  | Some (child_pid, w) => wait_children sched (nowait ps) child_pid sh w
                  | None => Undefined
                  end
              end
          end
    end.

(** *** The whole of [shell_exec] *)

Variable var_garbage : cstring.
Variable listing : list cstring.        (* the entries of the current directory *)
Variable rline_history : list cstring.

(** The history is kept by the line editor, which is not part of [sh.c]:
    these are its two functions that record a line, the first for a new
    entry, the second for a line that continues the last entry. *)
Variable rline_history_insert : list cstring -> cstring -> list cstring.
Variable rline_history_append_line : list cstring -> cstring -> list cstring.

(** The history prelude: [!n] replaces the line by entry [n]; [None] stands
    for the answer that the event is not found. *)
Definition history_lookup (buffer : cstring) : option cstring :=
  match buffer with
  | "!" :: rest =>
      let x := atoi rest in
      if (0 <? x)%Z && (x <=? Z.of_nat (length rline_history))%Z
      then nth_error rline_history (Z.to_nat (x - 1))
      else None
  | _ => Some buffer
  end.

(** [shell_exec]: the value returned, with the shell and its processes as
    the call leaves them.  What the call does to the history is
    [shell_exec_history] below. *)
Definition shell_exec (sched : list wait_event) (sh : ShellState) (w : World)
    (buffer : cstring) (more : list cstring) : exec_result :=
  match history_lookup buffer with
  | None => Returned 0 sh w
  | Some buffer =>
      match tokenize var_garbage sh buffer more with
      | LexStarved => Starved
      | LexUnterminated => Returned 127 sh w
      | LexArgs args => execute sched (plan listing args) sh w
      end
  end.

(** One turn of the loops of [main]: [if (ret >= 0) last_ret = ret;] *)
Definition keep_status (r : exec_result) : exec_result :=
  match r with
  | Returned ret sh w =>
      Returned ret (if (0 <=? ret)%Z then set_last_ret ret sh else sh) w
  | _ => r
  end.

Definition main_step (sched : list wait_event) (sh : ShellState) (w : World)
    (buffer : cstring) (more : list cstring) : exec_result :=
  keep_status (shell_exec sched sh w buffer more).

(** *** The history

    The line, or the entry recalled in its place, is recorded before it is
    read, unless it begins with a space or a newline; when the event is not
    found nothing is recorded. *)
Definition history_prelude (buffer : cstring) : list cstring :=
  match history_lookup buffer with
  | None => rline_history
  | Some buffer =>
      if negb (ceqb (hd NUL buffer) " ") && negb (ceqb (hd NUL buffer) newline)
      then rline_history_insert rline_history buffer
      else rline_history
  end.

(** The lines read at the prompt to close a quotation are added to the
    history; those read from a script are not. *)
Fixpoint lex_history (sh : ShellState) (st : lex_state) (buffer : cstring)
    (more : list cstring) (hist : list cstring) : list cstring :=
  match scan_line var_garbage sh st buffer with
  | None => hist
  | Some st' =>
      if negb (quote_eqb (quoted st') QNone) then
        match more with
        | [] => hist
        | l :: more' =>
            if (shell_interactive sh =? 1)%Z
            then lex_history sh st' l more' (rline_history_append_line hist l)
            else if (shell_interactive sh =? 2)%Z
                 then lex_history sh st' l more' hist
                 else hist
        end
      else hist
  end.

(** The history as a call of [shell_exec] leaves it. *)
Definition shell_exec_history (sh : ShellState) (buffer : cstring) (more : list cstring)
  : list cstring :=
  match history_lookup buffer with
  | None => rline_history
  | Some buffer' => lex_history sh lex_init buffer' more (history_prelude buffer)
  end.

End Executor.

(** ** Vocabulary of the statements *)

(** [s] ends with [suf]. *)
Definition ends_with (s suf : cstring) : bool :=
  starts_with (rev s) (rev suf).

Definition nul_free (s : cstring) : bool :=
  forallb (fun x => negb (ceqb x NUL)) s.

(** Characters with no meaning for the lexer nor for the planner's markers. *)
Definition plain_char (c : ascii) : bool :=
  negb (ceqb c "$" || ceqb c dquote || ceqb c "'" || ceqb c "*" || ceqb c "\"
        || ceqb c " " || ceqb c newline || ceqb c "|" || ceqb c ">" || ceqb c "#"
        || ceqb c xFF).

Definition plain_word (w : cstring) : bool :=
  negb (length w =? 0)%nat && forallb plain_char w.

(** The status [run_cmd] ends with in a child whose command has no handler. *)
Definition external_status
    (execvp : ShellState -> stdin_src -> stdout_dst -> list cstring -> option outcome)
    (signal_code : Z -> Z) (sh : ShellState) (cout : stdout_dst) (a : list cstring) : Z :=
  match execvp sh StdinInherited cout a with
  | Some (Exited code) => code
  | Some (Signaled sig) => signal_code sig
  | None => 127%Z
  end.

(** The number the leading digits of [s] write in decimal. *)
Fixpoint decimal_digits (acc : Z) (s : cstring) : Z :=
  match s with
  | [] => acc
  | c :: s' =>
      if isdigit c
      then decimal_digits (10 * acc + Z.of_nat (nat_of_ascii c - nat_of_ascii "0")) s'
      else acc
  end.

Definition decimal (s : cstring) : Z := decimal_digits 0 s.

(** The line stops a name here: it ends, or goes on with a character that
    [variable_char] refuses. *)
Definition stops_name (rest : cstring) : bool :=
  match rest with
  | [] => true
  | c :: _ => negb (variable_char c)
  end.

(** The lexer between quotations with no backslash pending. *)
Definition word_state (b : cstring) (hs : bool) (a : list cstring) : lex_state :=
  {| quoted := QNone; backtick := false; buffer_ := b; have_star := hs; args := a |}.

(** The entry test as the glob rule words it: not hidden, starts with the
    prefix and, when the suffix is non-empty, ends with the suffix. *)
Definition worded_glob_entry (before after s : cstring) : bool :=
  negb (ceqb (hd NUL s) ".") && starts_with s before
  && ((length after =? 0)%nat || ends_with s after).

(** The entry test with the suffix looked for after the prefix. *)
Definition glob_keeps (before after s : cstring) : bool :=
  negb (ceqb (hd NUL s) ".") && starts_with s before
  && ends_with (skipn (length before) s) after.

(** The children in the order in which [reap_loop] reaps them. *)
Fixpoint reap_trace (sched : list wait_event) (cs : list child_proc) : list child_proc :=
  match cs with
  | [] => []
  | c0 :: _ =>
      match sched with
      | WIntr :: sched' => reap_trace sched' cs
      | WReap k :: sched' =>
          let n := (k mod length cs)%nat in
          nth n cs c0 :: reap_trace sched' (remove_nth n cs)
      | [] => cs
      end
  end.

(** The first stage starts at [argv[0]]; as long as no pipe was met, [argv]
    holds words only. *)
Definition plan_shape (ps : plan_state) : Prop :=
  arg_starts ps 0%nat = Some 0%nat
  /\ (cmdi ps = 0%nat -> exists ws, argv ps = map Some ws).

(** The handler [shell_exec] calls in its own process, if any: the pipeline
    has one stage and [shell_find] answers for [argv[0]]. *)
Definition direct_builtin (commands : list command) (ps : plan_state) : option shell_command_t :=
  if (0 <? cmdi ps)%nat then None
  else match hd None (final_argv ps) with
       | Some name => shell_find commands name
       | None => None
       end.

(** The arguments a child reads at [arg_starts[k]] in the array [a]. *)
Definition raw_args (ps : plan_state) (a : list (option cstring)) (k : nat) : list cstring :=
  match stage ps a k with
  | Some x => until_null x
  | None => []
  end.

(** The arguments of stage [k]. *)
Definition stage_args (ps : plan_state) (k : nat) : list cstring :=
  raw_args ps (final_argv ps) k.



Definition exec_status (r : exec_result) : option Z :=
  match r with
  | Returned ret _ _ => Some ret
  | _ => None
  end.

Definition exec_shell (r : exec_result) : option ShellState :=
  match r with
  | Returned _ sh _ => Some sh
  | _ => None
  end.

(** ** A small system to run the shell in *)

Module Demo.

(** The shell started as [sh -c line]: no continuation lines are read. *)
Definition sh_c : ShellState :=
  {| cwd := cs "/"; environ := [(cs "HOME", cs "/home/u"); (cs "A", cs "x")];
     last_ret := 0; shell_argv := []; shell_interactive := 0; child := 0 |}.

(** The shell running a script with one argument. *)
Definition sh_script : ShellState :=
  {| cwd := cs "/"; environ := [(cs "HOME", cs "/home/u"); (cs "A", cs "x")];
     last_ret := 7; shell_argv := [cs "script"; cs "one"]; shell_interactive := 2;
     child := 0 |}.

Definition world : World :=
  {| w_children := []; w_next_pid := 10; w_pipes := 0; w_tty_pgrp := 1; w_shell_pid := 1 |}.

Definition is_directory (p : cstring) : bool := streq p (cs "/tmp").

Definition registry : list command := install_commands is_directory (cs "u").

(** Programs on the search path and how they end. *)
Definition programs (sh : ShellState) (cin : stdin_src) (cout : stdout_dst)
    (a : list cstring) : option outcome :=
  match a with
  | name :: _ =>
      if streq name (cs "prog3") then Some (Exited 3)
      else if streq name (cs "true") then Some (Exited 0)
      else if streq name (cs "sleep") then Some (Exited 0)
      else if streq name (cs "false") then Some (Exited 1)
      else if streq name (cs "segv") then Some (Signaled 11)
      else None
  | [] => None
  end.

Definition signal_code (sig : Z) : Z := (128 + sig)%Z.

Definition listing : list cstring := [cs "a.txt"; cs "b.txt"; cs ".hidden"].

Definition garbage : cstring := [].

(** One turn of the read-eval loop in this system. *)
Definition turn (sched : list wait_event) (sh : ShellState) (w : World) (line : cstring)
  : exec_result :=
  main_step registry programs signal_code garbage listing [] sched sh w line [].

End Demo.



(** ** Start-up: filling the command table *)

(** [#define SHELL_COMMANDS 512] *)
Definition SHELL_COMMANDS : nat := 512.

(** The three parallel arrays are one list of entries; a full table refuses
    the entry (after a message on stderr). *)
Definition shell_install_command (commands : list command) (name : cstring)
    (f : option shell_command_t) (d : option cstring) : list command :=
  if (length commands =? SHELL_COMMANDS)%nat then commands
  else commands ++ [{| string_ := name; func := f; desc := d |}].

Section SearchPath.

(** [opendir]/[readdir] on a directory: [None] when it cannot be opened. *)
Variable readdir : cstring -> option (list cstring).

Definition add_path_contents (commands : list command) (path : cstring) : list command :=
  match readdir path with
  | None => commands
  | Some ents =>
      fold_left
        (fun cmds d_name =>
           if negb (ceqb (hd NUL d_name) ".")
           then shell_install_command cmds d_name None None
           else cmds)
        ents commands
  end.

(** The [do ... while (tmp)] of [add_path]: the directory up to the first
    colon is scanned, then the text after it; the last directory is the text
    without colon.  [None] only when the fuel runs out. *)
Fixpoint add_path_loop (fuel : nat) (commands : list command) (tmp : cstring)
  : option (list command) :=
  match fuel with
  | O => None
  | S fuel' =>
      match strstr tmp (cs ":") with
      | Some k =>
          add_path_loop fuel' (add_path_contents commands (firstn k tmp)) (skipn (S k) tmp)
      | None => Some (add_path_contents commands tmp)
      end
  end.

Definition add_path (sh : ShellState) (commands : list command) : option (list command) :=
  match getenv sh (cs "PATH") with
  | None => Some (add_path_contents commands (cs "/bin"))
  | Some envvar => add_path_loop (S (length envvar)) commands envvar
  end.

End SearchPath.

(** The directories [add_path] visits for a value of [PATH], in order. *)
Fixpoint path_dirs (fuel : nat) (tmp : cstring) : list cstring :=
  match fuel with
  | O => []
  | S fuel' =>
      match strstr tmp (cs ":") with
      | Some k => firstn k tmp :: path_dirs fuel' (skipn (S k) tmp)
      | None => [tmp]
      end
  end.

(** The directories joined again with colons. *)
Fixpoint join_colon (dirs : list cstring) : cstring :=
  match dirs with
  | [] => []
  | [d] => d
  | d :: rest => d ++ ":" :: join_colon rest
  end.

(** [strcmp] as the sign of the first difference, bytes compared unsigned. *)
Fixpoint strcmp (a b : cstring) : comparison :=
  match a, b with
  | [], [] => Eq
  | [], _ :: _ => Lt
  | _ :: _, [] => Gt
  | x :: a', y :: b' =>
      match Nat.compare (nat_of_ascii x) (nat_of_ascii y) with
      | Eq => strcmp a' b'
      | c => c
      end
  end.

(** [comp_shell_commands(p1, p2) <= 0] *)
Definition comp_shell_commands_le (p1 p2 : command) : Prop :=
  strcmp (string_ p1) (string_ p2) <> Gt.

(** [sort_commands]: the table copied out, sorted by [qsort] and copied back.
    [qsort] fixes the result only up to the order of entries with equal
    names, hence a relation: [out] is an arrangement of the table in
    ascending order of names. *)
Definition sort_commands (commands out : list command) : Prop :=
  Permutation commands out /\ StronglySorted comp_shell_commands_le out.

(** ** The prompt *)

(** The directory shown by [draw_prompt]: the working directory, with the
    home directory at its head replaced by a tilde when what follows is the
    end of the path or a slash. *)
Definition prompt_cwd (home : option cstring) (cwd : cstring) : cstring :=
  match home with
  | Some home =>
      if starts_with cwd home then
        let c := skipn (length home) cwd in
        if ceqb (hd NUL c) "/" || ceqb (hd NUL c) NUL then "~" :: c else cwd
      else cwd
  | None => cwd
  end.

(** ** Completion of command names *)

(** The candidates of [COMPLETE_COMMAND]: the registered names that start
    with the prefix, in table order. *)
Definition command_matches (commands : list command) (prefix : cstring) : list cstring :=
  filter (fun name => starts_with name prefix) (map string_ commands).

(** The [do ... while (j < requested)] that looks for text common to all the
    candidates: [rest] is the last candidate from index [j] on; the result is
    the final [j]. *)
Fixpoint common_extent (rest : cstring) (matches : list cstring) (j requested : nat) : nat :=
  match rest with
  | [] => j
  | d :: rest' =>
      if existsb (fun m => negb (ceqb (nth j m NUL) d) || ceqb (nth j m NUL) NUL) matches
      then j
      else if (S j <? requested)%nat
           then common_extent rest' matches (S j) requested
           else S j
  end.

(** What [tab_complete_func] does once the candidates are collected. *)
Inductive completion :=
| Insert (texts : list cstring)       (* the calls of rline_insert, then a redraw *)
| SetTabbed                           (* c->tabbed = 1 *)
| ListMatches (l : list cstring)      (* the candidates are printed *)
| NoCompletion.

(** [matches] is the list of candidates and [match_] the last one found;
    [word] is the word under the cursor (None for a null pointer). *)
Definition finish_completion (matches : list cstring) (match_ : cstring)
    (word : option cstring) (word_offset : nat) (no_space_if_only : bool)
    (requested : nat) (tabbed : bool) : completion :=
  if (length matches =? 1)%nat then
    let first := skipn word_offset match_ in
    match word with
    | Some w =>
        if (word_offset =? length w)%nat && negb no_space_if_only
        then Insert [first; cs " "]
        else Insert [first]
    | None => Insert [first]
    end
  else if (1 <? length matches)%nat then
    if negb tabbed then
      let j := common_extent (skipn word_offset match_) matches word_offset requested in
      if (word_offset <? j)%nat
      then Insert [firstn (j - word_offset) (skipn word_offset match_)]
      else SetTabbed
    else ListMatches matches
  else NoCompletion.

(** ** Running lines *)

(** The loop of [main] over a script.  [lines] are the buffers that [fgets]
    fills, one for each turn of the loop (the last one is empty when the read
    fails at the end of the file); each is run with the state, the processes
    and the history the previous one left.  [None] when a line does not
    return (the shell exits, or a null pointer is dereferenced) or leaves a
    quotation open, the lines read by [shell_exec] itself to close it not
    being followed here. *)
Section Script.

Variable shell_commands : list command.
Variable execvp : ShellState -> stdin_src -> stdout_dst -> list cstring -> option outcome.
Variable signal_code : Z -> Z.
Variable var_garbage : cstring.
Variable listing : list cstring.
Variable rline_history_insert : list cstring -> cstring -> list cstring.
Variable rline_history_append_line : list cstring -> cstring -> list cstring.

Fixpoint run_script (lines : list cstring) (rline_history : list cstring)
    (sh : ShellState) (w : World) : option (ShellState * World * list cstring) :=
  match lines with
  | [] => Some (sh, w, rline_history)
  | buf :: lines' =>
      match main_step shell_commands execvp signal_code var_garbage listing
              rline_history [] sh w buf [] with
      | Returned _ sh' w' =>
          run_script lines'
            (shell_exec_history var_garbage rline_history rline_history_insert
               rline_history_append_line sh buf [])
            sh' w'
      | _ => None
      end
  end.

End Script.

(** ** More vocabulary *)

(** Words joined by single spaces. *)
Fixpoint join_words (ws : list cstring) : cstring :=
  match ws with
  | [] => []
  | [w] => w
  | w :: rest => w ++ " " :: join_words rest
  end.

(** The token list cut at the pipe markers. *)
Fixpoint split_pipes (toks : list cstring) : list (list cstring) :=
  match toks with
  | [] => [[]]
  | t :: rest =>
      if streq t PIPE_TOKEN then [] :: split_pipes rest
      else match split_pipes rest with
           | s :: ss => (t :: s) :: ss
           | [] => [[t]]
           end
  end.

(** Descriptors of stage [k] of a pipeline of [n + 1] stages whose first pipe
    is number [p0]: every stage reads the pipe the stage before it writes. *)
Definition stage_stdin (p0 k : nat) : stdin_src :=
  if (k =? 0)%nat then StdinInherited else StdinPipe (p0 + k - 1).

Definition stage_stdout (p0 n : nat) (last : stdout_dst) (k : nat) : stdout_dst :=
  if (k =? n)%nat then last else StdoutPipe (p0 + k).

(** The lexer inside a quotation with no backslash pending. *)
Definition quote_state (q : quote) (b : cstring) (hs : bool) (a : list cstring) : lex_state :=
  {| quoted := q; backtick := false; buffer_ := b; have_star := hs; args := a |}.

(** A word as the lexer hands it over: none when nothing was collected. *)
Definition word_if_any (t : cstring) : list cstring :=
  match t with
  | [] => []
  | _ => [t]
  end.

(** Some entry of the table bears the name. *)
Definition registered (commands : list command) (name : cstring) : bool :=
  existsb (fun c => streq name (string_ c)) commands.

(** Characters copied as they are inside single quotes, and inside double
    quotes. *)
Definition verbatim_single (c : ascii) : bool := negb (ceqb c "'").

Definition verbatim_double (c : ascii) : bool :=
  negb (ceqb c "$" || ceqb c dquote || ceqb c "\").

(** A token that is a plain word or the pipe marker. *)
Definition stage_token (t : cstring) : bool := plain_word t || streq t PIPE_TOKEN.

(** The planner's arrays hold the closed stages [done] and the stage [cur]
    under construction, and no redirection. *)
Definition stages_laid_out (ps : plan_state) (done : list (list cstring))
    (cur : list cstring) : Prop :=
  cmdi ps = length done
  /\ next_is_file ps = 0%nat
  /\ (exists pre, argv ps = pre ++ map Some cur
                  /\ arg_starts ps (length done) = Some (length pre))
  /\ argcs ps (length done) = length cur
  /\ (forall k, (length done < k)%nat -> argcs ps k = 0%nat)
  /\ (forall k, (k < length done)%nat ->
                argcs ps k = length (nth k done [])
                /\ exists pre tail,
                    argv ps = pre ++ map Some (nth k done []) ++ None :: tail
                    /\ arg_starts ps k = Some (length pre))
  /\ (forall k, output_files ps k = None).

(** The descriptors a child was given. *)
Definition child_io (c : child_proc) : stdin_src * stdout_dst := (c_stdin c, c_stdout c).

(** Characters with a meaning for the lexer that a backslash takes away
    (the quote characters and the newline are handled before the backslash is
    looked at). *)
Definition escapable (c : ascii) : bool :=
  ceqb c "$" || ceqb c "*" || ceqb c "\" || ceqb c " " || ceqb c "|" || ceqb c ">"
  || ceqb c "#".

(** * Supporting facts *)

(** ** The scanning loop ends *)

Lemma read_braced_length p : forall var coll,
  (length (snd (read_braced p var coll)) <= length p)%nat.
Proof.
  induction p as [|c p IH]; intros var coll; cbn [read_braced]; [apply Nat.le_refl|].
  destruct (negb (ceqb c "}") && (coll <? 100)%nat); [|apply Nat.le_refl].
  cbn [length]. apply Nat.le_le_succ_r, IH.
Qed.

Lemma read_bare_length p : forall var coll,
  (length (snd (read_bare p var coll)) <= length p)%nat.
Proof.
  induction p as [|c p IH]; intros var coll; cbn [read_bare]; [apply Nat.le_refl|].
  destruct (variable_char c && (coll <? 100)%nat); [|apply Nat.le_refl].
  cbn [Nat.eqb andb]. cbn [length]. apply Nat.le_le_succ_r, IH.
Qed.

Lemma read_var_length p : (length (snd (read_var p)) <= length p)%nat.
Proof.
  unfold read_var. destruct (ceqb (hd NUL p) "{"); [|apply read_bare_length].
  pose proof (read_braced_length (tl p) None 0) as H.
  destruct (read_braced (tl p) None 0) as [var rest]. cbn [snd] in H.
  assert (Ht : (length (tl p) <= length p)%nat) by (destruct p; cbn; lia).
  destruct (ceqb (hd NUL rest) "}"); cbn [snd]; [|lia].
  destruct rest; cbn in *; lia.
Qed.

Lemma lex_char_continue g sh st c p' st' rest :
  lex_char g sh st c p' = Jcontinue st' rest -> (length rest <= length p')%nat.
Proof.
  unfold lex_char. intros H.
  pose proof (read_var_length p') as Hr.
  destruct (read_var p') as [var r]. cbn [snd] in Hr.
  repeat match type of H with
         | (if ?b then _ else _) = _ => destruct b
         | (let _ := if ?b then _ else _ in _) = _ => destruct b
         end; try discriminate.
  injection H as _ <-. exact Hr.
Qed.

(** With one unit of fuel per character (and one to see the end of the line)
    the loop always returns a state. *)
Lemma lex_scan_total g sh : forall fuel p st,
  (length p < fuel)%nat -> exists st', lex_scan g fuel sh st p = Some st'.
Proof.
  induction fuel as [|fuel IH]; intros p st Hf; [lia|].
  destruct p as [|c p']; cbn [lex_scan]; [now exists st|].
  cbn [length] in Hf.
  destruct (lex_char g sh st c p') as [st1|st1 rest|st1] eqn:E.
  - apply IH; lia.
  - apply lex_char_continue in E. apply IH; lia.
  - now exists st1.
Qed.

Lemma scan_line_total g sh st buffer :
  exists st', scan_line g sh st buffer = Some st'.
Proof. apply lex_scan_total. apply Nat.lt_succ_diag_r. Qed.

(** Without continuation ([sh -c]) the lexer answers with the arguments or
    with the syntax error. *)
Lemma tokenize_answers g sh buffer :
  (shell_interactive sh =? 1)%Z || (shell_interactive sh =? 2)%Z = false ->
  (exists l, tokenize g sh buffer [] = LexArgs l)
  \/ tokenize g sh buffer [] = LexUnterminated.
Proof.
  intros Hi. unfold tokenize, lex_lines.
  destruct (scan_line_total g sh lex_init buffer) as [st' ->]. rewrite Hi.
  destruct (negb (quote_eqb (quoted st') QNone)); [now right|].
  left. destruct (collected st'); eexists; reflexivity.
Qed.
(** ** Reaping *)

Lemma last_cons_default {A : Type} (l : list A) (x d : A) :
  last (x :: l) d = last l x.
Proof.
  revert x d; induction l as [|y l IH]; intros x d; [reflexivity|].
  change (last (x :: y :: l) d) with (last (y :: l) d).
  now rewrite (IH y d), (IH y x).
Qed.

Lemma fold_status_last (cs : list child_proc) (r : Z) :
  fold_left (fun _ c => c_status c) cs r = last (map c_status cs) r.
Proof.
  revert r; induction cs as [|c cs IH]; intros r; [reflexivity|].
  simpl fold_left. rewrite IH. simpl map. now rewrite last_cons_default.
Qed.

Lemma remove_nth_perm {A : Type} (n : nat) (l : list A) (d : A) :
  (n < length l)%nat -> Permutation (nth n l d :: remove_nth n l) l.
Proof.
  revert n; induction l as [|x l IH]; intros n Hn; simpl in Hn; [lia|].
  destruct n as [|n]; simpl; [apply Permutation_refl|].
  eapply perm_trans; [apply perm_swap|].
  apply perm_skip, IH; lia.
Qed.

Lemma reap_loop_trace (sched : list wait_event) :
  forall cs r,
    reap_loop sched cs r = (last (map c_status (reap_trace sched cs)) r, []).
Proof.
  induction sched as [|ev sched IH]; intros cs r.
  - destruct cs as [|c cs]; [reflexivity|].
    cbn [reap_loop reap_trace]. now rewrite fold_status_last.
  - destruct cs as [|c cs]; [reflexivity|].
    destruct ev as [k|]; cbn [reap_loop reap_trace].
    + rewrite IH. cbn [map]. now rewrite last_cons_default.
    + apply IH.
Qed.

Lemma reap_trace_perm (sched : list wait_event) :
  forall cs, Permutation (reap_trace sched cs) cs.
Proof.
  induction sched as [|ev sched IH]; intros cs.
  - destruct cs; apply Permutation_refl.
  - destruct cs as [|c cs]; [apply Permutation_refl|].
    destruct ev as [k|]; cbn [reap_trace]; [|apply IH].
    eapply perm_trans; [apply perm_skip, IH|].
    apply remove_nth_perm, Nat.mod_upper_bound. simpl; lia.
Qed.

(** ** Spawning *)

Section SpawnFacts.

Variable commands : list command.
Variable execvp : ShellState -> stdin_src -> stdout_dst -> list cstring -> option outcome.
Variable signal_code : Z -> Z.

Lemma fork_run_child sh w cin cout ps a k pid w1 :
  fork_run commands execvp signal_code sh w cin cout (stage ps a k) = Some (pid, w1) ->
  pid = w_next_pid w /\ w_shell_pid w1 = w_shell_pid w /\
  exists c, w_children w1 = w_children w ++ [c]
            /\ c_args c = raw_args ps a k /\ c_stdin c = cin /\ c_stdout c = cout
            /\ c_pid c = pid.
Proof.
  unfold fork_run, raw_args, obind.
  destruct (stage ps a k) as [x|]; [|discriminate].
  destruct (run_cmd _ _ _ _ _ _ x) as [st|]; [|discriminate].
  intros H; injection H as <- <-. repeat split.
  eexists; split; [reflexivity|]. repeat split.
Qed.

Lemma spawn_middle_children ps a sh :
  forall js last w last' w1,
    spawn_middle commands execvp signal_code ps a sh js last w = Some (last', w1) ->
    w_shell_pid w1 = w_shell_pid w /\
    exists new, w_children w1 = w_children w ++ new
                /\ map c_args new = map (raw_args ps a) js.
Proof.
  induction js as [|j js IH]; intros last w last' w1 H.
  - injection H as <- <-. split; [reflexivity|]. exists []. now rewrite app_nil_r.
  - cbn [spawn_middle pipe] in H. unfold obind in H.
    match type of H with
    | context [fork_run _ _ _ ?s ?w' ?i ?o ?st] =>
        destruct (fork_run commands execvp signal_code s w' i o st)
          as [[pid w2]|] eqn:Hf; [|discriminate]
    end.
    apply fork_run_child in Hf as (_ & Hp & c & Hc & Ha & _).
    apply IH in H as (Hp' & new & Hn & Hm).
    split; [now rewrite Hp', Hp|].
    exists (c :: new). rewrite Hn, Hc. cbn [w_children map].
    rewrite <- app_assoc. split; [reflexivity|]. now rewrite Ha, Hm.
Qed.

Lemma spawn_pipeline_children ps a sh w pid w1 :
  (0 < cmdi ps)%nat ->
  spawn_pipeline commands execvp signal_code ps a sh w = Some (pid, w1) ->
  w_shell_pid w1 = w_shell_pid w /\
  exists new, w_children w1 = w_children w ++ new
              /\ map c_args new = map (raw_args ps a) (seq 0 (S (cmdi ps)))
              /\ exists c0 rest, new = c0 :: rest /\ c_pid c0 = pid.
Proof.
  intros Hc H.
  unfold spawn_pipeline, pipe, obind in H.
  match type of H with
  | context [fork_run _ _ _ ?s ?w' ?i ?o ?st] =>
      destruct (fork_run commands execvp signal_code s w' i o st)
        as [[pid0 w2]|] eqn:Hf; [|discriminate]
  end.
  match type of H with
  | context [spawn_middle _ _ _ ?p ?a' ?s ?js ?l ?w'] =>
      destruct (spawn_middle commands execvp signal_code p a' s js l w')
        as [[last w3]|] eqn:Hm; [|discriminate]
  end.
  match type of H with
  | context [fork_run _ _ _ ?s ?w' ?i ?o ?st] =>
      destruct (fork_run commands execvp signal_code s w' i o st)
        as [[pid1 w4]|] eqn:Hl; [|discriminate]
  end.
  injection H as <- <-.
  apply fork_run_child in Hf as (Hpid & Hp0 & c0 & Hc0 & Ha0 & _ & _ & Hpid0).
  apply spawn_middle_children in Hm as (Hp1 & mid & Hmid & Hamid).
  apply fork_run_child in Hl as (_ & Hp2 & cl & Hcl & Hal & _).
  split; [now rewrite Hp2, Hp1, Hp0|].
  exists (c0 :: mid ++ [cl]). split; [|split].
  - rewrite Hcl, Hmid, Hc0. cbn [w_children]. now rewrite <- !app_assoc.
  - destruct (cmdi ps) as [|m] eqn:E; [lia|].
    replace (S m - 1)%nat with m in Hamid by lia.
    change (seq 0 (S (S m))) with (0%nat :: seq 1 (S m)).
    rewrite seq_S. cbn [map]. rewrite !map_app. cbn [map].
    now rewrite Ha0, Hamid, Hal.
  - now exists c0, (mid ++ [cl]).
Qed.

(** [execute] when no builtin is called in the shell itself. *)
Lemma execute_spawns sched ps sh w :
  length (argv ps) <> 0%nat ->
  direct_builtin commands ps = None ->
  execute commands execvp signal_code sched ps sh w <> Undefined ->
  exists child_pid w1 spawned,
    w_children w1 = w_children w ++ spawned
    /\ map c_args spawned = map (stage_args ps) (seq 0 (S (cmdi ps)))
    /\ w_shell_pid w1 = w_shell_pid w
    /\ execute commands execvp signal_code sched ps sh w
       = wait_children sched (nowait ps) child_pid sh w1.
Proof.
  intros Hlen Hb Hdef. unfold execute in *. unfold direct_builtin in Hb.
  destruct (Nat.eqb_spec (length (argv ps)) 0); [contradiction|].
  destruct (last_arg ps) as [l|]; [|contradiction].
  destruct (Nat.ltb_spec 0 (cmdi ps)) as [Hc|Hc].
  - destruct (spawn_pipeline _ _ _ _ _ _ _) as [[pid w1]|] eqn:Hs; [|contradiction].
    apply (spawn_pipeline_children _ _ _ _ _ _ Hc) in Hs as (Hp & new & Hn & Ha & _).
    now exists pid, w1, new.
  - destruct (hd None (final_argv ps)) as [name|]; [|contradiction].
    rewrite Hb in *.
    destruct (fork_run _ _ _ _ _ _ _ _) as [[pid w1]|] eqn:Hf; [|contradiction].
    replace (cmdi ps) with 0%nat in * by lia.
    apply fork_run_child in Hf as (_ & Hp & c & Hch & Ha & _).
    exists pid, w1, [c]. cbn [map seq]. unfold stage_args. now rewrite Ha.
Qed.






End SpawnFacts.

(** ** Frame and status facts about [execute] *)

Lemma until_null_map_some (ws : list cstring) (tl : list (option cstring)) :
  until_null (map Some ws ++ None :: tl) = ws.
Proof.
  induction ws as [|x ws IH]; [reflexivity|]. cbn. now rewrite IH.
Qed.



Lemma wait_children_foreground sched pid sh w :
  wait_children sched false pid sh w
  = Returned (last (map c_status (reap_trace sched (w_children w))) 0%Z)
      (set_child 0 sh)
      (tcsetpgrp (w_shell_pid w) (set_children [] (tcsetpgrp pid w))).
Proof.
  unfold wait_children. cbn [negb]. cbn [w_children tcsetpgrp].
  now rewrite reap_loop_trace.
Qed.

Lemma reap_trace_single sched c : reap_trace sched [c] = [c].
Proof.
  apply Permutation_length_1_inv, Permutation_sym, reap_trace_perm.
Qed.


Lemma direct_builtin_nonempty commands ps f :
  direct_builtin commands ps = Some f -> length (argv ps) <> 0%nat.
Proof.
  unfold direct_builtin, final_argv. intros H E.
  apply length_zero_iff_nil in E. rewrite E in H.
  destruct (0 <? cmdi ps)%nat; [discriminate|].
  destruct (nowait ps); discriminate.
Qed.


Lemma execute_lone commands execvp signal_code sched ps sh w name rest :
  cmdi ps = 0%nat ->
  arg_starts ps 0%nat = Some 0%nat ->
  argv ps = map Some (name :: rest) ->
  nowait ps = false ->
  shell_find commands name = None ->
  execute commands execvp signal_code sched ps sh w
  = wait_children sched false (w_next_pid w) sh
      {| w_children := w_children w ++
           [{| c_pid := w_next_pid w; c_stdin := StdinInherited;
               c_stdout := redirect ps 0; c_args := name :: rest;
               c_status := external_status execvp signal_code sh (redirect ps 0)
                             (name :: rest) |}];
         w_next_pid := (w_next_pid w + 1)%Z;
         w_pipes := w_pipes w;
         w_tty_pgrp := w_tty_pgrp w;
         w_shell_pid := w_shell_pid w |}.
Proof.
  intros Hc Hs Ha Hfg Hf.
  assert (Hfa : final_argv ps = Some name :: map Some rest ++ [None]).
  { unfold final_argv. now rewrite Hfg, Ha. }
  unfold execute.
  destruct (last_arg ps) as [l|] eqn:Hl.
  2:{ exfalso. unfold last_arg in Hl. rewrite Ha in Hl.
      rewrite app_nth1 in Hl by (rewrite length_map; cbn [length]; lia).
      rewrite (nth_indep _ None (Some (name : cstring))) in Hl
        by (rewrite length_map; cbn [length]; lia).
      rewrite map_nth in Hl. discriminate. }
  destruct (Nat.eqb_spec (length (argv ps)) 0) as [E|E];
    [rewrite Ha in E; discriminate|].
  rewrite Hc. cbn [Nat.ltb Nat.leb].
  rewrite Hfa. cbn [hd]. rewrite Hf.
  unfold fork_run, stage, obind. rewrite Hs. cbn [option_map skipn].
  unfold run_cmd. rewrite Hf.
  change (until_null (Some name :: map Some rest ++ [None]))
    with (until_null (map Some (name :: rest) ++ [None])).
  rewrite until_null_map_some, Hfg.
  match goal with
  | |- context [match ?e with Some _ => _ | None => _ end] =>
      replace e
        with (Some (external_status execvp signal_code sh (redirect ps 0) (name :: rest)))
  end.
  - reflexivity.
  - unfold external_status. destruct (execvp _ _ _ _) as [[code|sig]|]; reflexivity.
Qed.

(** ** Shape of a plan *)

Lemma push_arg_shape ps s : plan_shape ps -> plan_shape (push_arg ps s).
Proof.
  intros [Hs Hw]. split; [exact Hs|]. cbn [push_arg cmdi argv]. intros Hc.
  destruct (Hw Hc) as [ws E]. exists (ws ++ [s]). now rewrite E, map_app.
Qed.

Lemma push_args_shape l : forall ps, plan_shape ps -> plan_shape (fold_left push_arg l ps).
Proof.
  induction l as [|s l IH]; intros ps H; [exact H|].
  cbn [fold_left]. apply IH. now apply push_arg_shape.
Qed.

Lemma plan_token_shape listing ps c : plan_shape ps -> plan_shape (plan_token listing ps c).
Proof.
  intros H. unfold plan_token.
  destruct (negb (next_is_file ps =? 0)%nat).
  - destruct ((next_is_file ps =? 1)%nat && streq c WRITE_TOKEN); exact H.
  - destruct (streq c WRITE_TOKEN); [exact H|].
    destruct (streq c PIPE_TOKEN).
    + destruct H as [Hs _]. split; [|discriminate].
      cbn [next_stage arg_starts]. unfold upd. exact Hs.
    + destruct (strstr c STAR_TOKEN).
      * now apply push_args_shape.
      * now apply push_arg_shape.
Qed.

Lemma plan_tokens_shape listing l : forall ps,
  plan_shape ps -> plan_shape (fold_left (plan_token listing) l ps).
Proof.
  induction l as [|c l IH]; intros ps H; [exact H|].
  cbn [fold_left]. apply IH. now apply plan_token_shape.
Qed.

(** Every plan of a line without pipe is a list of words read from [argv[0]]. *)
Lemma plan_single_stage listing toks :
  cmdi (plan listing toks) = 0%nat ->
  arg_starts (plan listing toks) 0%nat = Some 0%nat
  /\ exists ws, argv (plan listing toks) = map Some ws.
Proof.
  intros Hc.
  destruct (plan_tokens_shape listing toks plan_init) as [Hs Hw].
  - split; [reflexivity|]. intros _. now exists [].
  - split; [exact Hs|]. now apply Hw.
Qed.

(** ** Lexing plain words *)

Lemma plain_char_inv c :
  plain_char c = true ->
  ceqb c "$" = false /\ ceqb c dquote = false /\ ceqb c "'" = false
  /\ ceqb c "*" = false /\ ceqb c "\" = false /\ ceqb c " " = false
  /\ ceqb c newline = false /\ ceqb c "|" = false /\ ceqb c ">" = false
  /\ ceqb c "#" = false /\ ceqb c xFF = false.
Proof.
  unfold plain_char. rewrite negb_true_iff, !orb_false_iff. tauto.
Qed.

Lemma lex_char_plain g sh b hs a c p' :
  plain_char c = true ->
  lex_char g sh (word_state b hs a) c p' = Jnext (word_state (b ++ [c]) hs a).
Proof.
  intros H. apply plain_char_inv in H.
  destruct H as (H1 & H2 & H3 & H4 & H5 & H6 & H7 & H8 & H9 & H10 & _).
  unfold lex_char. now rewrite H1, H2, H3, H4, H5, H6, H7, H8, H9, H10.
Qed.

Lemma lex_scan_plain g sh w :
  forall f b hs a rest,
    forallb plain_char w = true ->
    lex_scan g (length w + f) sh (word_state b hs a) (w ++ rest)
    = lex_scan g f sh (word_state (b ++ w) hs a) rest.
Proof.
  induction w as [|c w IH]; intros f b hs a rest H.
  - now rewrite app_nil_r.
  - cbn [forallb] in H. apply andb_true_iff in H as [Hc Hw].
    cbn [length Nat.add app lex_scan]. rewrite (lex_char_plain _ _ _ _ _ _ _ Hc).
    rewrite (IH _ _ _ _ _ Hw). now rewrite <- app_assoc.
Qed.

Lemma plain_word_inv w :
  plain_word w = true -> exists c w', w = c :: w' /\ forallb plain_char w = true
                                      /\ ceqb c xFF = false.
Proof.
  unfold plain_word. destruct w as [|c w']; [discriminate|].
  cbn [length Nat.eqb negb andb]. intros H. exists c, w'. repeat split; [exact H|].
  cbn [forallb] in H. apply andb_true_iff in H as [Hc _].
  now apply plain_char_inv in Hc.
Qed.

Lemma ceqb_sym a b : ceqb a b = ceqb b a.
Proof. apply Ascii.eqb_sym. Qed.

Lemma plain_no_marker w :
  forallb plain_char w = true -> strstr w STAR_TOKEN = None.
Proof.
  induction w as [|c w IH]; intros H; [reflexivity|].
  cbn [forallb] in H. apply andb_true_iff in H as [Hc Hw].
  apply plain_char_inv in Hc. destruct Hc as (_ & _ & _ & _ & _ & _ & _ & _ & _ & _ & Hx).
  cbn [strstr]. change STAR_TOKEN with (xFF :: tl STAR_TOKEN) at 1.
  cbn [starts_with]. rewrite ceqb_sym, Hx. cbn [andb]. now rewrite (IH Hw).
Qed.

Lemma plan_token_plain listing ps w :
  plain_word w = true -> next_is_file ps = 0%nat ->
  plan_token listing ps w = push_arg ps w.
Proof.
  intros Hp Hn. destruct (plain_word_inv w Hp) as (c & w' & -> & Hall & Hx).
  unfold plan_token. rewrite Hn. cbn [Nat.eqb negb].
  change WRITE_TOKEN with (xFF :: tl WRITE_TOKEN).
  change PIPE_TOKEN with (xFF :: tl PIPE_TOKEN).
  cbn [streq]. rewrite Hx. cbn [andb].
  now rewrite (plain_no_marker _ Hall).
Qed.


Lemma lex_scan_plain_end g sh w b hs a :
  forallb plain_char w = true ->
  lex_scan g (length w + 1) sh (word_state b hs a) w
  = Some (word_state (b ++ w) hs a).
Proof.
  intros H. rewrite <- (app_nil_r w) at 2.
  now rewrite (lex_scan_plain g sh w 1 b hs a [] H).
Qed.




(** ** Planning a redirection *)






(** ** Reading and resolving names *)

Lemma ceqb_eq a b : ceqb a b = true -> a = b.
Proof. apply Ascii.eqb_eq. Qed.

Lemma streq_eq a : forall b, streq a b = true <-> a = b.
Proof.
  induction a as [|x a IH]; intros [|y b]; cbn [streq]; split; intros H;
    try discriminate; try reflexivity.
  - apply andb_true_iff in H as [Hx Ha]. apply ceqb_eq in Hx. apply IH in Ha.
    now subst.
  - injection H as -> ->. apply andb_true_iff. split.
    + apply Ascii.eqb_refl.
    + now apply IH.
Qed.

Lemma fold_var_store name : forall v,
  fold_left var_store name (Some v) = Some (v ++ name).
Proof.
  induction name as [|c name IH]; intros v; cbn [fold_left var_store].
  - now rewrite app_nil_r.
  - rewrite IH. now rewrite <- app_assoc.
Qed.

Lemma read_bare_name name : forall rest var coll,
  forallb variable_char name = true ->
  (coll + length name <= 100)%nat ->
  (coll + length name = 100)%nat \/ stops_name rest = true ->
  read_bare (name ++ rest) var coll = (fold_left var_store name var, rest).
Proof.
  induction name as [|c name IH]; intros rest var coll Hv Hle Hstop.
  - cbn [app fold_left]. destruct rest as [|r rest]; [reflexivity|].
    cbn [read_bare]. destruct Hstop as [H100|Hs].
    + cbn [length] in H100. rewrite Nat.add_0_r in H100. subst coll.
      now rewrite andb_false_r.
    + cbn [stops_name] in Hs. apply negb_true_iff in Hs. now rewrite Hs.
  - cbn [forallb] in Hv. apply andb_true_iff in Hv as [Hc Hn].
    cbn [length] in Hle, Hstop. cbn [app read_bare fold_left].
    rewrite Hc. replace (coll <? 100)%nat with true
      by (symmetry; apply Nat.ltb_lt; lia).
    cbn [andb Nat.eqb]. apply IH; [exact Hn|lia|].
    destruct Hstop as [H|H]; [left; lia|now right].
Qed.

Lemma variable_char_classes c :
  variable_char c = isalpha c || isdigit c || ceqb c "_" || ceqb c "?".
Proof.
  unfold variable_char, isalpha, isdigit.
  destruct (in_range "A" "Z" c), (in_range "a" "z" c), (in_range "0" "9" c),
    (ceqb c "_"), (ceqb c "?"); reflexivity.
Qed.

Lemma wrap_int_small z : (- 2 ^ 31 <= z < 2 ^ 31)%Z -> wrap_int z = z.
Proof.
  intros H. unfold wrap_int. rewrite Z.mod_small; lia.
Qed.

Lemma wrap_int_step a d : wrap_int (10 * wrap_int a + d) = wrap_int (10 * a + d).
Proof.
  unfold wrap_int. f_equal.
  set (h := (2 ^ 31)%Z). set (m := (2 ^ 32)%Z).
  assert (Hm : m <> 0%Z) by (unfold m; lia).
  rewrite (Z.mod_eq (a + h) m Hm).
  replace (10 * (a + h - m * ((a + h) / m) - h) + d + h)%Z
    with ((10 * a + d + h) + (- 10 * ((a + h) / m)) * m)%Z by ring.
  apply Z_mod_plus_full.
Qed.

Lemma atoi_digits_wrap s :
  forall acc, atoi_digits (wrap_int acc) s = wrap_int (decimal_digits acc s).
Proof.
  induction s as [|c s IH]; intros acc; cbn [atoi_digits decimal_digits]; [reflexivity|].
  destruct (isdigit c); [|reflexivity].
  rewrite wrap_int_step. apply IH.
Qed.

Lemma decimal_digits_nonneg s : forall acc, (0 <= acc)%Z -> (0 <= decimal_digits acc s)%Z.
Proof.
  induction s as [|c s IH]; intros acc H; cbn [decimal_digits]; [exact H|].
  destruct (isdigit c); [apply IH; lia|exact H].
Qed.

Lemma is_number_atoi name :
  is_number name = true -> atoi name = wrap_int (decimal name).
Proof.
  intros H. unfold decimal. rewrite <- atoi_digits_wrap.
  change (wrap_int 0) with 0%Z.
  destruct name as [|c name]; [reflexivity|].
  cbn [is_number forallb] in H. apply andb_true_iff in H as [Hc _].
  unfold atoi.
  assert (Hs : isspace c = false).
  { destruct c as [[] [] [] [] [] [] [] []]; try reflexivity; discriminate. }
  cbn [skip_space]. rewrite Hs. cbn [hd].
  destruct (ceqb c "-") eqn:E1; [apply ceqb_eq in E1; subst; discriminate|].
  destruct (ceqb c "+") eqn:E2; [apply ceqb_eq in E2; subst; discriminate|].
  reflexivity.
Qed.

Lemma is_number_not_status name : is_number name = true -> streq name (cs "?") = false.
Proof.
  intros H. destruct (streq name (cs "?")) eqn:E; [|reflexivity].
  apply streq_eq in E; subst. discriminate.
Qed.

(** ** Tokens edited in place *)

Lemma starts_with_app s : forall pre,
  starts_with s pre = true <-> exists r, s = pre ++ r.
Proof.
  induction s as [|y s IH]; intros [|x pre]; cbn [starts_with]; split; intros H.
  - now exists [].
  - reflexivity.
  - discriminate.
  - destruct H as [r H]; discriminate.
  - now exists (y :: s).
  - reflexivity.
  - apply andb_true_iff in H as [Hx Hs]. apply ceqb_eq in Hx. subst y.
    apply IH in Hs as [r ->]. now exists r.
  - destruct H as [r H]. injection H as -> ->. apply andb_true_iff. split.
    + apply Ascii.eqb_refl.
    + apply IH. now exists r.
Qed.

Lemma strstr_split s pat : forall g,
  strstr s pat = Some g ->
  s = firstn g s ++ pat ++ skipn (g + length pat) s.
Proof.
  induction s as [|x s IH]; intros g H.
  - cbn [strstr] in H. destruct (starts_with [] pat) eqn:E; [|discriminate].
    injection H as <-. apply starts_with_app in E as [r E].
    destruct pat; [reflexivity|discriminate].
  - cbn [strstr] in H. destruct (starts_with (x :: s) pat) eqn:E.
    + injection H as <-. apply starts_with_app in E as [r E].
      cbn [firstn app Nat.add]. rewrite E at 2. rewrite skipn_app, skipn_all.
      rewrite Nat.sub_diag. cbn [skipn app]. exact E.
    + destruct (strstr s pat) as [g'|] eqn:E'; [|discriminate].
      injection H as <-. cbn [firstn app Nat.add skipn]. f_equal. now apply IH.
Qed.

Lemma nul_free_app s t : nul_free (s ++ t) = nul_free s && nul_free t.
Proof. apply forallb_app. Qed.

Lemma c_str_stop s : forall t, nul_free s = true -> c_str (s ++ NUL :: t) = s.
Proof.
  induction s as [|x s IH]; intros t H; [reflexivity|].
  cbn [nul_free forallb] in H. apply andb_true_iff in H as [Hx Hs].
  cbn [app c_str]. apply negb_true_iff in Hx. rewrite Hx. f_equal. now apply IH.
Qed.

Lemma poke_app {A : Type} (s : list A) : forall x t y,
  poke (s ++ x :: t) (length s) y = s ++ y :: t.
Proof.
  induction s as [|z s IH]; intros x t y; [reflexivity|].
  cbn [app length poke]. f_equal. apply IH.
Qed.

Lemma poke_app_next {A : Type} (s : list A) : forall x x' t y,
  poke (s ++ x :: x' :: t) (S (length s)) y = s ++ x :: y :: t.
Proof.
  induction s as [|z s IH]; intros x x' t y; [reflexivity|].
  cbn [app length poke]. f_equal. apply IH.
Qed.

Lemma blit_app (s : bytes) : forall t src,
  blit (s ++ t) (length s) src = s ++ src ++ skipn (length src) t.
Proof.
  induction s as [|z s IH]; intros t src.
  - cbn [app length blit]. destruct t; reflexivity.
  - cbn [app length blit]. f_equal. apply IH.
Qed.

Lemma ends_with_app s suf :
  ends_with s suf = true <-> exists r, s = r ++ suf.
Proof.
  unfold ends_with. rewrite starts_with_app. split; intros [r H].
  - exists (rev r). apply (f_equal (@rev ascii)) in H.
    rewrite rev_involutive, rev_app_distr, rev_involutive in H. exact H.
  - exists (rev r). now rewrite H, rev_app_distr.
Qed.

Lemma suffix_test t after :
  (length after <=? length t)%nat && streq after (skipn (length t - length after) t)
  = ends_with t after.
Proof.
  apply eq_true_iff_eq. rewrite andb_true_iff, Nat.leb_le, streq_eq, ends_with_app.
  split.
  - intros [Hl Hs]. exists (firstn (length t - length after) t).
    rewrite Hs at 2. symmetry. apply firstn_skipn.
  - intros [r ->]. rewrite length_app. split; [lia|].
    replace (length r + length after - length after)%nat with (length r) by lia.
    rewrite skipn_app, skipn_all, Nat.sub_diag. reflexivity.
Qed.

Lemma ends_with_nil s : ends_with s [] = true.
Proof. apply ends_with_app. exists s. now rewrite app_nil_r. Qed.

Lemma glob_entry_keeps before after s :
  glob_entry (negb (length before =? 0)%nat) (negb (length after =? 0)%nat) before after s
  = glob_keeps before after s.
Proof.
  unfold glob_entry, glob_keeps.
  destruct (negb (ceqb (hd NUL s) ".")); [|reflexivity]. cbn [andb].
  assert (Hsuf : forall t,
             (if negb (length after =? 0)%nat
              then if (length after <=? length t)%nat
                   then streq after (skipn (length t - length after) t)
                   else false
              else true) = ends_with t after).
  { intros t. destruct after as [|a after].
    - cbn [length Nat.eqb negb]. now rewrite ends_with_nil.
    - change (negb (length (a :: after) =? 0)%nat) with true. cbv iota.
      apply suffix_test. }
  destruct before as [|b before].
  - cbn [length Nat.eqb negb andb skipn].
    replace (starts_with s []) with true by (now destruct s). apply Hsuf.
  - change (negb (length (b :: before) =? 0)%nat) with true. cbn [andb].
    destruct (starts_with s (b :: before)); [|reflexivity]. cbn [negb andb].
    apply Hsuf.
Qed.

Lemma strstr_bound s pat : forall g, strstr s pat = Some g -> (g <= length s)%nat.
Proof.
  induction s as [|x s IH]; intros g H; cbn [strstr] in H.
  - destruct (starts_with [] pat); [|discriminate]. injection H as <-. apply Nat.le_0_l.
  - destruct (starts_with (x :: s) pat).
    + injection H as <-. apply Nat.le_0_l.
    + destruct (strstr s pat) as [g'|] eqn:E; [|discriminate].
      injection H as <-. cbn [length]. apply le_n_S. now apply IH.
Qed.

Lemma expand_glob_marked listing before after :
  nul_free before = true -> nul_free after = true ->
  strchr before "/" = false ->
  expand_glob listing (before ++ STAR_TOKEN ++ after) (length before)
  = match filter (glob_keeps before after) listing with
    | [] => [before ++ "*" :: after]
    | found => found
    end.
Proof.
  intros Hb Ha Hslash. unfold expand_glob. cbv zeta.
  replace ((before ++ STAR_TOKEN ++ after) ++ [NUL])
    with (before ++ xFF :: xFF :: cs "STAR" ++ [xFF; xFF] ++ after ++ [NUL])
    by (rewrite <- !app_assoc; reflexivity).
  rewrite poke_app, poke_app_next.
  rewrite (c_str_stop before _ Hb).
  rewrite skipn_app, skipn_all2 by lia.
  replace (length before + 8 - length before)%nat with 8%nat by lia.
  cbn [app cs list_ascii_of_string skipn].
  rewrite (c_str_stop after [] Ha).
  rewrite Hslash. cbn [negb]. rewrite orb_true_r.
  rewrite (filter_ext _ _ (glob_entry_keeps before after)).
  destruct (filter (glob_keeps before after) listing) as [|e found]; [|reflexivity].
  rewrite poke_app.
  change (before ++ "*" :: NUL :: "S" :: "T" :: "A" :: "R" :: xFF :: xFF :: after ++ [NUL])
    with (before ++ ["*"] ++ (NUL :: "S" :: "T" :: "A" :: "R" :: xFF :: xFF :: after ++ [NUL])).
  rewrite app_assoc.
  replace (S (length before)) with (length (before ++ ["*"]))
    by (rewrite length_app; cbn [length]; lia).
  rewrite blit_app. rewrite <- !app_assoc. cbn [app].
  f_equal.
  replace (before ++ "*" :: after ++
             NUL :: skipn (length (after ++ [NUL]))
                      (NUL :: "S" :: "T" :: "A" :: "R" :: xFF :: xFF :: after ++ [NUL]))
    with ((before ++ "*" :: after) ++
            NUL :: skipn (length (after ++ [NUL]))
                     (NUL :: "S" :: "T" :: "A" :: "R" :: xFF :: xFF :: after ++ [NUL]))
    by (now rewrite <- app_assoc).
  apply c_str_stop. rewrite nul_free_app, Hb. cbn [andb nul_free forallb].
  exact Ha.
Qed.
(** * Properties *)

(** ** The code on particular lines *)

(** C10.  In the Normal state a backslash does not protect a quote character:
    the pending backslash is only looked at on the branch that would close a
    quotation, so backslash-quote opens one and nothing is added to the word.
    Inside a double-quoted string the same pair does give the quote alone.
    Under [sh -c] the line [echo \'a] is therefore an unterminated string
    instead of the words [echo] and ['a]. *)
Theorem escaped_quote_opens_quotation :
  forall g sh b hs a p',
    lex_char g sh {| quoted := QNone; backtick := true; buffer_ := b;
                     have_star := hs; args := a |} dquote p'
    = Jnext {| quoted := QDouble; backtick := true; buffer_ := b;
               have_star := hs; args := a |}
    /\ lex_char g sh {| quoted := QNone; backtick := true; buffer_ := b;
                        have_star := hs; args := a |} "'" p'
       = Jnext {| quoted := QSingle; backtick := true; buffer_ := b;
                  have_star := hs; args := a |}
    /\ lex_char g sh {| quoted := QDouble; backtick := true; buffer_ := b;
                        have_star := hs; args := a |} dquote p'
       = Jnext {| quoted := QDouble; backtick := false; buffer_ := b ++ [dquote];
                  have_star := hs; args := a |}
    /\ tokenize g Demo.sh_c (cs "echo \'a") [] = LexUnterminated
    /\ tokenize g Demo.sh_c (cs "echo \" ++ [dquote; "a"]) [] = LexUnterminated.
Proof.
  intros; repeat split; reflexivity.
Qed.

(** C3.  [next_is_file] is never cleared: on [echo a > f b] the word [b]
    replaces [f] as the redirection path and does not reach argv, and on
    [a > f | b] the pipe marker and [b] are taken as paths too, so that no
    second stage is opened. *)
Theorem redirect_swallows_following_tokens :
  forall g sh listing,
    tokenize g sh (cs "echo a > f b") []
    = LexArgs [cs "echo"; cs "a"; WRITE_TOKEN; cs "f"; cs "b"]
    /\ argv (plan listing [cs "echo"; cs "a"; WRITE_TOKEN; cs "f"; cs "b"])
       = [Some (cs "echo"); Some (cs "a")]
    /\ output_files (plan listing [cs "echo"; cs "a"; WRITE_TOKEN; cs "f"; cs "b"]) 0
       = Some (cs "b")
    /\ cmdi (plan listing [cs "a"; WRITE_TOKEN; cs "f"; PIPE_TOKEN; cs "b"]) = 0%nat
    /\ argv (plan listing [cs "a"; WRITE_TOKEN; cs "f"; PIPE_TOKEN; cs "b"])
       = [Some (cs "a")]
    /\ output_files (plan listing [cs "a"; WRITE_TOKEN; cs "f"; PIPE_TOKEN; cs "b"]) 0
       = Some (cs "b").
Proof.
  intros; repeat split; reflexivity.
Qed.

(** C4.  A glob whose prefix names a directory gets its [*] back but not its
    suffix: the branch writes [glob[0] = '*'] over a token cut at [glob[1]]
    and omits the [memmove] of the no-match branch, so [d/*.txt] becomes [d/*]. *)
Theorem directory_glob_loses_suffix :
  forall g sh listing,
    tokenize g sh (cs "ls d/*.txt") []
    = LexArgs [cs "ls"; cs "d/" ++ STAR_TOKEN ++ cs ".txt"]
    /\ expand_glob listing (cs "d/" ++ STAR_TOKEN ++ cs ".txt") 2 = [cs "d/*"]
    /\ argv (plan listing [cs "ls"; cs "d/" ++ STAR_TOKEN ++ cs ".txt"])
       = [Some (cs "ls"); Some (cs "d/*")]
    /\ expand_glob [] (cs "d" ++ STAR_TOKEN ++ cs ".txt") 1 = [cs "d*.txt"].
Proof.
  intros; repeat split; reflexivity.
Qed.

(** ** Inputs on which a sentence of the description fails *)

(** C7.  The entry [abc] starts with [ab] and ends with [bc], yet [ab*bc]
    does not expand to it: the suffix is looked for in what follows the prefix. *)
Lemma glob_overlap_not_matched :
  worded_glob_entry (cs "ab") (cs "bc") (cs "abc") = true
  /\ strchr (cs "ab") "/" = false
  /\ expand_glob [cs "abc"] (cs "ab" ++ STAR_TOKEN ++ cs "bc") 2
     <> filter (worded_glob_entry (cs "ab") (cs "bc")) [cs "abc"]
  /\ expand_glob [cs "abc"] (cs "ab" ++ STAR_TOKEN ++ cs "bc") 2 = [cs "ab*bc"].
Proof.
  repeat split; try reflexivity.
  vm_compute; discriminate.
Qed.

(** C6.  [?] is a name character: in [$A?] the name read is [A?], which is
    not set, so the word vanishes although [A] is set to [x]. *)
Lemma question_mark_joins_name :
  read_bare (cs "A?") None 0 = (Some (cs "A?"), [])
  /\ (isalpha "?" || isdigit "?" || ceqb "?" "_") = false
  /\ getenv Demo.sh_c (cs "A") = Some (cs "x")
  /\ tokenize [] Demo.sh_c (cs "echo $A?") [] = LexArgs [cs "echo"]
  /\ tokenize [] Demo.sh_c (cs "echo $A ?") [] = LexArgs [cs "echo"; cs "x"; cs "?"].
Proof.
  repeat split; reflexivity.
Qed.



(** C2.  With a background child still running ([sleep 5 &] on the line
    before), the foreground [prog3] exits with 3 but the loop goes on to reap
    the sleeper: the status reported is the sleeper's 0 and [$?] reads 0. *)
Lemma stray_child_masks_status :
  exists sh1 w1,
    Demo.turn [] Demo.sh_c Demo.world (cs "sleep 5 &") = Returned 0 sh1 w1
    /\ Demo.programs sh1 StdinInherited StdoutInherited [cs "prog3"] = Some (Exited 3)
    /\ length (w_children w1) = 1%nat
    /\ exec_status (Demo.turn [WReap 1] sh1 w1 (cs "prog3")) = Some 0%Z
    /\ option_map (fun sh => resolve sh (cs "?"))
         (exec_shell (Demo.turn [WReap 1] sh1 w1 (cs "prog3")))
       = Some (Some (cs "0")).
Proof.
  eexists; eexists; split; [vm_compute; reflexivity|].
  repeat split; reflexivity.
Qed.

(** ** The executor *)







(** C2, as the code has it.  A foreground single-stage pipeline that runs an
    external program, started when the shell has no other child, returns the
    status [waitpid] stores for that program: its exit code (0 on success),
    the signal-derived code when a signal ended it, 127 when no such program
    exists.  A status that is not negative becomes [last_ret], and [$?] then
    reads it in decimal: after a program that exits with 3 the text is [3]. *)
Theorem lone_external_status :
  forall commands execvp signal_code sched ps sh w name rest,
    cmdi ps = 0%nat ->
    arg_starts ps 0%nat = Some 0%nat ->
    argv ps = map Some (name :: rest) ->
    nowait ps = false ->
    shell_find commands name = None ->
    w_children w = [] ->
    let status :=
      match execvp sh StdinInherited (redirect ps 0) (name :: rest) with
      | Some (Exited code) => code
      | Some (Signaled sig) => signal_code sig
      | None => 127%Z
      end in
    (exists w',
        execute commands execvp signal_code sched ps sh w
        = Returned status (set_child 0 sh) w'
        /\ w_children w' = [])
    /\ ((0 <= status)%Z ->
        exec_shell (keep_status (execute commands execvp signal_code sched ps sh w))
        = Some (set_last_ret status (set_child 0 sh))
        /\ resolve (set_last_ret status (set_child 0 sh)) (cs "?")
           = Some (sprintf_d status))
    /\ (execvp sh StdinInherited (redirect ps 0) (name :: rest) = Some (Exited 3) ->
        status = 3%Z /\ sprintf_d status = cs "3").
Proof.
  intros commands execvp signal_code sched ps sh w name rest Hc Hs Ha Hfg Hf Hw status.
  assert (Hx : exists w',
             execute commands execvp signal_code sched ps sh w
             = Returned status (set_child 0 sh) w' /\ w_children w' = []).
  { rewrite (execute_lone _ _ _ _ _ _ _ _ _ Hc Hs Ha Hfg Hf).
    rewrite wait_children_foreground. cbn [w_children tcsetpgrp].
    rewrite Hw. cbn [app]. rewrite reap_trace_single. cbn [map last c_status].
    eexists; split; reflexivity. }
  split; [exact Hx|]. destruct Hx as (w' & Hx & _). split.
  - intros Hpos. rewrite Hx. cbn [keep_status exec_shell].
    apply Z.leb_le in Hpos. rewrite Hpos. split; reflexivity.
  - intros He. unfold status. rewrite He. split; reflexivity.
Qed.

Lemma lone_external_status_witness :
  (exists w',
      execute Demo.registry Demo.programs Demo.signal_code []
        (plan Demo.listing [cs "prog3"]) Demo.sh_c Demo.world
      = Returned 3 (set_child 0 Demo.sh_c) w'
      /\ w_children w' = [])
  /\ resolve (set_last_ret 3 (set_child 0 Demo.sh_c)) (cs "?") = Some (cs "3").
Proof.
  destruct (lone_external_status Demo.registry Demo.programs Demo.signal_code []
              (plan Demo.listing [cs "prog3"]) Demo.sh_c Demo.world (cs "prog3") [])
    as (Hx & Hq & _); try reflexivity.
  split; [exact Hx|]. apply Hq. vm_compute; discriminate.
Defined.

(** ** Redirection *)



(** ** Variables *)

(** C6, as the code has it.  Outside single quotes and with no backslash
    pending, [$] followed by a name made of letters, digits, [_] and [?] (at
    most 100 characters, read up to the first other character) inserts the
    value of the name into the word in progress and goes on after the name.
    The name [?] is the last exit status in decimal; a name made of digits is
    the positional argument whose index the digits write, when that index is
    below [shell_argc]; these are tried first, and any other name is looked
    up in the environment.  The index is the [int] that [atoi] reads, the
    number written reduced to 32 bits, and the argument is taken when this
    [int] is not negative and below [shell_argc].  A name without a value
    leaves the lexer state as it is.  Names that begin with a digit or [?]
    and go on with other name characters are left aside. *)
Theorem dollar_name_expansion :
  forall g sh st name rest,
    quoted st <> QSingle ->
    backtick st = false ->
    name <> [] ->
    forallb variable_char name = true ->
    (length name <= 100)%nat ->
    (length name = 100)%nat \/ stops_name rest = true ->
    isalpha (hd NUL name) || ceqb (hd NUL name) "_" = true
      \/ name = cs "?" \/ is_number name = true ->
    (forall c, variable_char c = isalpha c || isdigit c || ceqb c "_" || ceqb c "?")
    /\ lex_char g sh st "$" (name ++ rest) = Jcontinue (expand_var g sh (Some name) st) rest
    /\ (forall v, resolve sh name = Some v ->
                  buffer_ (expand_var g sh (Some name) st) = buffer_ st ++ v
                  /\ args (expand_var g sh (Some name) st) = args st
                  /\ quoted (expand_var g sh (Some name) st) = quoted st)
    /\ (resolve sh name = None -> expand_var g sh (Some name) st = st)
    /\ (name = cs "?" -> resolve sh name = Some (sprintf_d (last_ret sh)))
    /\ (is_number name = true ->
        atoi name = wrap_int (decimal name)
        /\ resolve sh name
           = (if (0 <=? atoi name)%Z && (atoi name <? shell_argc sh)%Z
              then nth_error (shell_argv sh) (Z.to_nat (atoi name))
              else None)
        /\ ((decimal name < shell_argc sh)%Z -> (shell_argc sh <= 2 ^ 31)%Z ->
            exists arg,
              nth_error (shell_argv sh) (Z.to_nat (decimal name)) = Some arg
              /\ resolve sh name = Some arg))
    /\ (name <> cs "?" -> is_number name = false -> resolve sh name = getenv sh name).
Proof.
  intros g sh st name rest Hq Hb Hne Hv Hlen Hstop _.
  split; [exact variable_char_classes|]. split; [|split; [|split; [|split; [|split]]]].
  - unfold lex_char. cbn [ceqb Ascii.eqb Bool.eqb andb].
    replace (quote_eqb (quoted st) QSingle) with false
      by (destruct (quoted st); try reflexivity; contradiction).
    rewrite Hb. unfold read_var.
    destruct name as [|c name]; [contradiction|].
    cbn [forallb] in Hv. apply andb_true_iff in Hv as [Hc Hn].
    cbn [app hd].
    destruct (ceqb c "{") eqn:E; [apply ceqb_eq in E; subst; discriminate|].
    change (c :: name ++ rest) with ((c :: name) ++ rest).
    rewrite (read_bare_name (c :: name) rest None 0).
    + cbn [fold_left var_store]. rewrite fold_var_store. reflexivity.
    + cbn [forallb]. now rewrite Hc, Hn.
    + cbn [Nat.add]. exact Hlen.
    + cbn [Nat.add]. exact Hstop.
  - intros v Hr. unfold expand_var. cbn [var_contents]. rewrite Hr. repeat split.
  - intros Hr. unfold expand_var. cbn [var_contents]. now rewrite Hr.
  - intros ->. reflexivity.
  - intros Hnum.
    assert (Hr : resolve sh name
                 = (if (0 <=? atoi name)%Z && (atoi name <? shell_argc sh)%Z
                    then nth_error (shell_argv sh) (Z.to_nat (atoi name))
                    else None)).
    { unfold resolve. now rewrite (is_number_not_status _ Hnum), Hnum. }
    split; [exact (is_number_atoi _ Hnum)|]. split; [exact Hr|].
    intros Hlt Hint.
    pose proof (decimal_digits_nonneg name 0 (Z.le_refl 0)) as Hpos.
    fold (decimal name) in Hpos.
    assert (Ha : atoi name = decimal name).
    { rewrite (is_number_atoi _ Hnum). apply wrap_int_small. lia. }
    rewrite Hr, Ha.
    replace (0 <=? decimal name)%Z with true by (symmetry; now apply Z.leb_le).
    replace (decimal name <? shell_argc sh)%Z with true by (symmetry; now apply Z.ltb_lt).
    cbn [andb].
    destruct (nth_error (shell_argv sh) (Z.to_nat (decimal name))) as [arg|] eqn:E.
    + now exists arg.
    + apply nth_error_None in E. unfold shell_argc in Hlt. lia.
  - intros Hns Hnn. unfold resolve. rewrite Hnn.
    destruct (streq name (cs "?")) eqn:E; [apply streq_eq in E; contradiction|].
    reflexivity.
Qed.

Lemma dollar_name_expansion_witness :
  lex_char [] Demo.sh_script (word_state (cs "x") false [cs "echo"]) "$" (cs "HOME/y")
  = Jcontinue (word_state (cs "x/home/u") false [cs "echo"]) (cs "/y")
  /\ resolve Demo.sh_script (cs "?") = Some (cs "7")
  /\ resolve Demo.sh_script (cs "1") = Some (cs "one")
  /\ resolve Demo.sh_script (cs "5") = None
  /\ resolve Demo.sh_script (cs "4294967297") = Some (cs "one").
Proof.
  destruct (dollar_name_expansion [] Demo.sh_script (word_state (cs "x") false [cs "echo"])
              (cs "HOME") (cs "/y"))
    as (_ & Hx & _); try reflexivity; try discriminate.
  { cbn; lia. }
  { right; reflexivity. }
  { left; reflexivity. }
  destruct (dollar_name_expansion [] Demo.sh_script lex_init (cs "?") [])
    as (_ & _ & _ & _ & Hs & _); try reflexivity; try discriminate.
  { cbn; lia. }
  { right; reflexivity. }
  { right; left; reflexivity. }
  destruct (dollar_name_expansion [] Demo.sh_script lex_init (cs "1") [])
    as (_ & _ & _ & _ & _ & H1 & _); try reflexivity; try discriminate.
  { cbn; lia. }
  { right; reflexivity. }
  { right; right; reflexivity. }
  destruct (dollar_name_expansion [] Demo.sh_script lex_init (cs "5") [])
    as (_ & _ & _ & _ & _ & H5 & _); try reflexivity; try discriminate.
  { cbn; lia. }
  { right; reflexivity. }
  { right; right; reflexivity. }
  destruct (dollar_name_expansion [] Demo.sh_script lex_init (cs "4294967297") [])
    as (_ & _ & _ & _ & _ & H6 & _); try reflexivity; try discriminate.
  { cbn; lia. }
  { right; reflexivity. }
  { right; right; reflexivity. }
  split; [exact Hx|]. split; [exact (Hs eq_refl)|].
  split; [|split].
  - destruct (H1 eq_refl) as (_ & _ & H). destruct H as (arg & Ha & Hr).
    + reflexivity.
    + vm_compute; discriminate.
    + rewrite Hr. vm_compute in Ha. injection Ha as <-. reflexivity.
  - destruct (H5 eq_refl) as (_ & H & _). rewrite H. reflexivity.
  - destruct (H6 eq_refl) as (_ & H & _). rewrite H. reflexivity.
Defined.

(** ** Globbing *)

(** C7, as the code has it.  A token whose marker is found at offset [glob],
    with a prefix free of [/], is replaced by the entries of the current
    directory, in the order of the listing, that do not start with a dot,
    start with the prefix and, in what follows the prefix, end with the
    suffix; when no entry is kept the token itself, with its [*] put back,
    is the only word produced. *)
Theorem glob_expansion :
  forall listing c glob,
    nul_free c = true ->
    strstr c STAR_TOKEN = Some glob ->
    strchr (firstn glob c) "/" = false ->
    let before := firstn glob c in
    let after := skipn (glob + 8) c in
    c = before ++ STAR_TOKEN ++ after
    /\ expand_glob listing c glob
       = match filter (glob_keeps before after) listing with
         | [] => [before ++ "*" :: after]
         | found => found
         end
    /\ (forall e,
           In e (filter (glob_keeps before after) listing)
           <-> In e listing
               /\ ceqb (hd NUL e) "." = false
               /\ (exists r, e = before ++ r /\ exists m, r = m ++ after)).
Proof.
  intros listing c glob Hnul Hs Hslash before after.
  pose proof (strstr_split _ _ _ Hs) as Hc.
  change (length STAR_TOKEN) with 8%nat in Hc. fold before after in Hc.
  assert (Hlen : length before = glob).
  { unfold before. apply firstn_length_le. eapply strstr_bound; eassumption. }
  assert (Hnb : nul_free before = true /\ nul_free after = true).
  { rewrite Hc, !nul_free_app in Hnul.
    apply andb_true_iff in Hnul as [Hb Hr]. apply andb_true_iff in Hr as [_ Ha].
    now split. }
  destruct Hnb as [Hb Ha].
  split; [exact Hc|]. split.
  - rewrite Hc at 1. rewrite <- Hlen at 1.
    now apply expand_glob_marked.
  - intros e. rewrite filter_In. unfold glob_keeps.
    rewrite !andb_true_iff, negb_true_iff, starts_with_app, ends_with_app.
    split.
    + intros (Hin & (Hdot & r & Hr) & m & Hm). repeat split; try assumption.
      exists r. split; [exact Hr|]. exists m.
      rewrite Hr, skipn_app, skipn_all, Nat.sub_diag in Hm. exact Hm.
    + intros (Hin & Hdot & r & Hr & m & Hm). repeat split; try assumption.
      * now exists r.
      * exists m. rewrite Hr, skipn_app, skipn_all, Nat.sub_diag. exact Hm.
Qed.

(** In a directory that holds [a.txt], [b.txt] and [.hidden], the token of
    [*.txt] expands to [a.txt] and [b.txt]. *)
Lemma glob_expansion_witness :
  expand_glob Demo.listing (STAR_TOKEN ++ cs ".txt") 0 = [cs "a.txt"; cs "b.txt"]
  /\ ~ In (cs ".hidden") (expand_glob Demo.listing (STAR_TOKEN ++ cs ".txt") 0).
Proof.
  destruct (glob_expansion Demo.listing (STAR_TOKEN ++ cs ".txt") 0)
    as (_ & Hx & _); try reflexivity.
  split.
  - rewrite Hx. reflexivity.
  - rewrite Hx. cbn. intros [H|[H|[]]]; discriminate.
Defined.

(** * Further properties *)

(** ** The command table *)

Lemma shell_find_app l1 l2 name :
  shell_find (l1 ++ l2) name
  = if registered l1 name then shell_find l1 name else shell_find l2 name.
Proof.
  induction l1 as [|c l1 IH]; [reflexivity|].
  cbn [app shell_find registered existsb].
  destruct (streq name (string_ c)); [reflexivity|]. exact IH.
Qed.

Lemma streq_refl a : streq a a = true.
Proof. now apply streq_eq. Qed.

(** X1.  Looking a name up after an installation: a name that is already in
    the table keeps the answer it had (the first entry wins), a new name gets
    the handler just installed as long as the table has a free slot, and no
    other name is affected; a table of 512 entries is left as it is. *)
Theorem install_then_find :
  forall commands name f d,
    (registered commands name = true ->
     shell_find (shell_install_command commands name f d) name = shell_find commands name)
    /\ (registered commands name = false -> (length commands < SHELL_COMMANDS)%nat ->
        shell_find (shell_install_command commands name f d) name = f)
    /\ (forall other, streq other name = false ->
                      shell_find (shell_install_command commands name f d) other
                      = shell_find commands other)
    /\ (length commands = SHELL_COMMANDS ->
        shell_install_command commands name f d = commands).
Proof.
  intros commands name f d. unfold shell_install_command.
  split; [|split; [|split]].
  - intros Hr. destruct (length commands =? SHELL_COMMANDS)%nat; [reflexivity|].
    now rewrite shell_find_app, Hr.
  - intros Hr Hl.
    destruct (Nat.eqb_spec (length commands) SHELL_COMMANDS) as [E|_]; [lia|].
    rewrite shell_find_app, Hr. cbn [shell_find string_ func].
    now rewrite streq_refl.
  - intros other Ho. destruct (length commands =? SHELL_COMMANDS)%nat; [reflexivity|].
    rewrite shell_find_app. cbn [shell_find string_ func]. rewrite Ho.
    destruct (registered commands other) eqn:E; [reflexivity|].
    clear Ho. induction commands as [|c cs IH]; [reflexivity|].
    cbn [registered existsb] in E. apply orb_false_iff in E as [E1 E2].
    cbn [shell_find]. rewrite E1. now apply IH.
  - intros Hl. now rewrite Hl, Nat.eqb_refl.
Qed.

Lemma install_then_find_witness :
  shell_find (shell_install_command Demo.registry (cs "cd") None None) (cs "cd")
  = shell_find Demo.registry (cs "cd")
  /\ shell_find (shell_install_command Demo.registry (cs "pwd")
                   (Some shell_cmd_help) None) (cs "pwd") = Some shell_cmd_help.
Proof.
  destruct (install_then_find Demo.registry (cs "cd") None None) as (H1 & _).
  destruct (install_then_find Demo.registry (cs "pwd") (Some shell_cmd_help) None)
    as (_ & H2 & _).
  split; [apply H1; reflexivity|apply H2; [reflexivity|]].
  unfold SHELL_COMMANDS. cbn. lia.
Defined.

(** ** Scanning the search path *)

Lemma install_null_find commands name d other :
  shell_find (shell_install_command commands name None d) other
  = shell_find commands other.
Proof.
  unfold shell_install_command.
  destruct (length commands =? SHELL_COMMANDS)%nat; [reflexivity|].
  rewrite shell_find_app. cbn [shell_find string_ func].
  destruct (registered commands other) eqn:E; [reflexivity|].
  replace (if streq other name then None else None)
    with (@None shell_command_t) by (now destruct (streq other name)).
  induction commands as [|c cs IH]; [reflexivity|].
  cbn [registered existsb] in E. apply orb_false_iff in E as [E1 E2].
  cbn [shell_find]. rewrite E1. now apply IH.
Qed.

Lemma install_grows commands name f d :
  exists extra,
    shell_install_command commands name f d = commands ++ extra
    /\ (forall c, In c extra -> func c = f)
    /\ ((length commands <= SHELL_COMMANDS)%nat ->
        (length (shell_install_command commands name f d) <= SHELL_COMMANDS)%nat).
Proof.
  unfold shell_install_command.
  destruct (Nat.eqb_spec (length commands) SHELL_COMMANDS) as [E|E].
  - exists []. rewrite app_nil_r. repeat split; auto. intros c [].
  - eexists; split; [reflexivity|]. split.
    + intros c [<-|[]]. reflexivity.
    + rewrite length_app. cbn [length]. lia.
Qed.

Section PathFacts.

Variable readdir : cstring -> option (list cstring).

Lemma add_path_contents_facts commands path :
  (forall name, shell_find (add_path_contents readdir commands path) name
                = shell_find commands name)
  /\ (exists extra, add_path_contents readdir commands path = commands ++ extra
                    /\ forall c, In c extra -> func c = None)
  /\ ((length commands <= SHELL_COMMANDS)%nat ->
      (length (add_path_contents readdir commands path) <= SHELL_COMMANDS)%nat).
Proof.
  unfold add_path_contents. destruct (readdir path) as [ents|].
  2:{ split; [reflexivity|]. split; [|auto].
      exists []. rewrite app_nil_r. split; [reflexivity|intros c []]. }
  revert commands. induction ents as [|e ents IH]; intros commands.
  - split; [reflexivity|]. split; [|auto].
    exists []. rewrite app_nil_r. split; [reflexivity|intros c []].
  - cbn [fold_left]. destruct (negb (ceqb (hd NUL e) ".")).
    + destruct (IH (shell_install_command commands e None None))
        as (Hf & (x & Hx & Hnx) & Hl).
      destruct (install_grows commands e None None) as (y & Hy & Hny & Hly).
      split; [|split].
      * intros name. now rewrite Hf, install_null_find.
      * exists (y ++ x). split; [now rewrite Hx, Hy, app_assoc|].
        intros c Hin. apply in_app_or in Hin as [Hin|Hin]; auto.
      * intros H. auto.
    + apply IH.
Qed.

Lemma add_path_dirs_facts dirs : forall commands,
  exists extra,
    fold_left (add_path_contents readdir) dirs commands = commands ++ extra
    /\ (forall c, In c extra -> func c = None)
    /\ (forall name,
           shell_find (fold_left (add_path_contents readdir) dirs commands) name
           = shell_find commands name)
    /\ ((length commands <= SHELL_COMMANDS)%nat ->
        (length (fold_left (add_path_contents readdir) dirs commands)
         <= SHELL_COMMANDS)%nat).
Proof.
  induction dirs as [|d dirs IH]; intros commands.
  - exists []. rewrite app_nil_r. repeat split; auto. intros c [].
  - cbn [fold_left].
    destruct (add_path_contents_facts commands d) as (Hf & (x & Hx & Hnx) & Hl).
    destruct (IH (add_path_contents readdir commands d)) as (y & Hy & Hny & Hfy & Hly).
    exists (x ++ y). split; [now rewrite Hy, Hx, app_assoc|]. split; [|split].
    + intros c Hin. apply in_app_or in Hin as [Hin|Hin]; auto.
    + intros name. now rewrite Hfy, Hf.
    + auto.
Qed.

Lemma colon_position tmp k :
  strstr tmp (cs ":") = Some k ->
  tmp = firstn k tmp ++ ":" :: skipn (S k) tmp /\ (k < length tmp)%nat.
Proof.
  intros H. pose proof (strstr_split _ _ _ H) as Hs.
  pose proof (strstr_bound _ _ _ H) as Hb.
  cbn [cs list_ascii_of_string length app] in Hs.
  replace (k + 1)%nat with (S k) in Hs by lia.
  split; [exact Hs|].
  apply (f_equal (@length ascii)) in Hs.
  rewrite length_app, firstn_length_le in Hs by exact Hb.
  cbn [length] in Hs. lia.
Qed.

Lemma add_path_loop_dirs : forall fuel commands tmp,
  (length tmp < fuel)%nat ->
  add_path_loop readdir fuel commands tmp
  = Some (fold_left (add_path_contents readdir) (path_dirs fuel tmp) commands).
Proof.
  induction fuel as [|fuel IH]; intros commands tmp Hf; [lia|].
  cbn [add_path_loop path_dirs].
  destruct (strstr tmp (cs ":")) as [k|] eqn:E; [|reflexivity].
  cbn [fold_left]. apply IH.
  destruct (colon_position _ _ E) as [_ Hk]. rewrite length_skipn. lia.
Qed.

Lemma add_path_shape sh commands :
  exists out extra,
    add_path readdir sh commands = Some out
    /\ out = commands ++ extra
    /\ (forall c, In c extra -> func c = None)
    /\ (forall name, shell_find out name = shell_find commands name)
    /\ ((length commands <= SHELL_COMMANDS)%nat -> (length out <= SHELL_COMMANDS)%nat).
Proof.
  unfold add_path. destruct (getenv sh (cs "PATH")) as [envvar|].
  - rewrite add_path_loop_dirs by apply Nat.lt_succ_diag_r.
    destruct (add_path_dirs_facts (path_dirs (S (length envvar)) envvar) commands)
      as (x & Hx & Hn & Hf & Hl).
    eexists _, x. split; [reflexivity|]. auto.
  - destruct (add_path_dirs_facts [cs "/bin"] commands) as (x & Hx & Hn & Hf & Hl).
    eexists _, x. split; [reflexivity|]. auto.
Qed.

End PathFacts.

Lemma strstr_char_first s c : forall k,
  strstr s [c] = Some k -> strchr (firstn k s) c = false.
Proof.
  induction s as [|x s IH]; intros k H; cbn [strstr] in H.
  - cbn [starts_with] in H. discriminate.
  - cbn [starts_with] in H. destruct (ceqb c x) eqn:E.
    + replace (starts_with s []) with true in H by (now destruct s).
      cbn [andb] in H. injection H as <-. reflexivity.
    + cbn [andb] in H. destruct (strstr s [c]) as [k'|] eqn:E'; [|discriminate].
      injection H as <-. cbn [firstn strchr existsb]. rewrite E. cbn [orb].
      now apply IH.
Qed.

Lemma strstr_char_none s c : strstr s [c] = None -> strchr s c = false.
Proof.
  induction s as [|x s IH]; intros H; [reflexivity|].
  cbn [strstr starts_with] in H. destruct (ceqb c x) eqn:E.
  - replace (starts_with s []) with true in H by (now destruct s). discriminate.
  - cbn [andb] in H. destruct (strstr s [c]); [discriminate|].
    cbn [strchr existsb]. rewrite E. now apply IH.
Qed.

Lemma path_dirs_facts : forall fuel tmp,
  (length tmp < fuel)%nat ->
  join_colon (path_dirs fuel tmp) = tmp
  /\ Forall (fun d => strchr d ":" = false) (path_dirs fuel tmp)
  /\ path_dirs fuel tmp <> [].
Proof.
  induction fuel as [|fuel IH]; intros tmp Hf; [lia|].
  cbn [path_dirs]. destruct (strstr tmp (cs ":")) as [k|] eqn:E.
  - destruct (colon_position _ _ E) as [Hs Hk].
    destruct (IH (skipn (S k) tmp)) as (Hj & Hall & Hne);
      [rewrite length_skipn; lia|].
    split; [|split]; [| |discriminate].
    + cbn [join_colon].
      destruct (path_dirs fuel (skipn (S k) tmp)) as [|d ds] eqn:Ed; [contradiction|].
      rewrite Hj. symmetry. exact Hs.
    + constructor; [|exact Hall]. now apply (strstr_char_first tmp ":").
  - split; [reflexivity|]. split; [|discriminate].
    constructor; [|constructor]. now apply (strstr_char_none tmp ":").
Qed.

(** X2.  Scanning the search path never changes what [shell_find] answers:
    the names it adds carry no handler and come after the entries already
    there, which keep their places; and a table within its 512 slots stays
    within them however many files the directories hold. *)
Theorem path_scan_keeps_dispatch :
  forall readdir sh commands,
    exists out extra,
      add_path readdir sh commands = Some out
      /\ out = commands ++ extra
      /\ (forall c, In c extra -> func c = None)
      /\ (forall name, shell_find out name = shell_find commands name)
      /\ ((length commands <= SHELL_COMMANDS)%nat -> (length out <= SHELL_COMMANDS)%nat).
Proof.
  intros readdir sh commands. apply add_path_shape.
Qed.

Lemma path_scan_keeps_dispatch_witness :
  let readdir := fun p : cstring =>
                   if streq p (cs "/bin") then Some [cs "ls"; cs "cd"; cs ".x"] else None in
  exists out,
    add_path readdir Demo.sh_c Demo.registry = Some out
    /\ shell_find out (cs "cd") = shell_find Demo.registry (cs "cd")
    /\ (length out <= SHELL_COMMANDS)%nat.
Proof.
  intros readdir.
  destruct (path_scan_keeps_dispatch readdir Demo.sh_c Demo.registry)
    as (out & extra & H1 & _ & _ & H4 & H5).
  exists out. split; [exact H1|]. split; [apply H4|].
  apply H5. vm_compute. lia.
Defined.

(** X3.  The directories scanned are the pieces of [PATH] between its colons,
    in order and with the empty ones: joined again with colons they give
    [PATH] back, and none of them holds a colon. *)
Theorem path_pieces_round_trip :
  forall readdir sh commands envvar,
    getenv sh (cs "PATH") = Some envvar ->
    let dirs := path_dirs (S (length envvar)) envvar in
    add_path readdir sh commands
    = Some (fold_left (add_path_contents readdir) dirs commands)
    /\ join_colon dirs = envvar
    /\ Forall (fun d => strchr d ":" = false) dirs
    /\ dirs <> [].
Proof.
  intros readdir sh commands envvar He dirs. unfold add_path. rewrite He.
  split; [apply add_path_loop_dirs, Nat.lt_succ_diag_r|].
  apply path_dirs_facts, Nat.lt_succ_diag_r.
Qed.

Lemma path_pieces_round_trip_witness :
  path_dirs 10 (cs "/bin::/usr") = [cs "/bin"; []; cs "/usr"]
  /\ join_colon (path_dirs 10 (cs "/bin::/usr")) = cs "/bin::/usr".
Proof.
  destruct (path_pieces_round_trip (fun _ => None)
              (set_environ [(cs "PATH", cs "/bin::/usr")] Demo.sh_c) []
              (cs "/bin::/usr") eq_refl) as (_ & Hj & _).
  split; [reflexivity|exact Hj].
Defined.

(** ** Sorting the table *)

Lemma registered_in commands name :
  registered commands name = true
  <-> exists c, In c commands /\ streq name (string_ c) = true.
Proof. unfold registered. apply existsb_exists. Qed.

Lemma shell_find_agreed commands name f :
  (forall c, In c commands -> streq name (string_ c) = true -> func c = f) ->
  registered commands name = true ->
  shell_find commands name = f.
Proof.
  induction commands as [|c cs IH]; intros Hall Hr; [discriminate|].
  cbn [shell_find]. cbn [registered existsb] in Hr.
  destruct (streq name (string_ c)) eqn:E.
  - apply Hall; [now left|exact E].
  - apply IH; [|exact Hr]. intros c' Hin. apply Hall. now right.
Qed.

Lemma shell_find_unregistered commands name :
  registered commands name = false -> shell_find commands name = None.
Proof.
  induction commands as [|c cs IH]; intros Hr; [reflexivity|].
  cbn [registered existsb] in Hr. apply orb_false_iff in Hr as [E1 E2].
  cbn [shell_find]. rewrite E1. now apply IH.
Qed.

Lemma registered_perm l l' name :
  Permutation l l' -> registered l name = registered l' name.
Proof.
  intros Hp. apply eq_true_iff_eq. rewrite !registered_in.
  split; intros (c & Hin & Hc); exists c; split; try exact Hc.
  - eapply Permutation_in; eassumption.
  - eapply Permutation_in; [apply Permutation_sym|]; eassumption.
Qed.

Lemma shell_find_rearranged l l' name f :
  Permutation l l' ->
  (forall c, In c l -> streq name (string_ c) = true -> func c = f) ->
  registered l name = true ->
  shell_find l' name = f.
Proof.
  intros Hp Hall Hr. apply shell_find_agreed.
  - intros c Hin. apply Hall. eapply Permutation_in; [apply Permutation_sym|]; eassumption.
  - now rewrite <- (registered_perm _ _ _ Hp).
Qed.

Lemma shell_find_agreed_none commands name :
  (forall c, In c commands -> streq name (string_ c) = true -> func c = None) ->
  shell_find commands name = None.
Proof.
  intros H. destruct (registered commands name) eqn:E.
  - now apply shell_find_agreed.
  - now apply shell_find_unregistered.
Qed.

(** X4.  Sorting the table keeps the answer of [shell_find] for every name
    whose entries agree on the handler, in particular for every name that
    occurs once; a name that is not in the table is not found afterwards
    either. *)
Theorem sort_keeps_lookup :
  forall commands out name,
    sort_commands commands out ->
    (forall f,
        (forall c, In c commands -> streq name (string_ c) = true -> func c = f) ->
        registered commands name = true ->
        shell_find out name = f /\ shell_find commands name = f)
    /\ (registered commands name = false -> shell_find out name = None).
Proof.
  intros commands out name [Hp _]. split.
  - intros f Hall Hr. split.
    + eapply shell_find_rearranged; eassumption.
    + now apply shell_find_agreed.
  - intros Hr. apply shell_find_unregistered.
    now rewrite <- (registered_perm _ _ _ Hp).
Qed.

Lemma sort_keeps_lookup_witness :
  let a := {| string_ := cs "b"; func := Some shell_cmd_help; desc := None |} in
  let b := {| string_ := cs "a"; func := None; desc := None |} in
  sort_commands [a; b] [b; a] /\ shell_find [b; a] (cs "b") = Some shell_cmd_help.
Proof.
  intros a b.
  assert (Hs : sort_commands [a; b] [b; a]).
  { split; [apply perm_swap|].
    repeat constructor; unfold comp_shell_commands_le; cbn; discriminate. }
  split; [exact Hs|].
  destruct (sort_keeps_lookup [a; b] [b; a] (cs "b") Hs) as [H _].
  apply (H (Some shell_cmd_help)).
  - intros c [<-|[<-|[]]]; [reflexivity|discriminate].
  - reflexivity.
Defined.

Lemma shell_find_unique commands name c :
  NoDup (map string_ commands) ->
  In c commands -> streq name (string_ c) = true ->
  shell_find commands name = func c.
Proof.
  induction commands as [|c' cs IH]; intros Hn Hin Hc; [contradiction|].
  cbn [map] in Hn. apply NoDup_cons_iff in Hn as [Hnot Hn].
  cbn [shell_find]. destruct Hin as [->|Hin].
  - now rewrite Hc.
  - destruct (streq name (string_ c')) eqn:E; [|now apply IH].
    exfalso. apply Hnot. apply streq_eq in E, Hc. rewrite <- E, Hc.
    now apply in_map.
Qed.

Lemma install_commands_names is_directory username :
  NoDup (map string_ (install_commands is_directory username)).
Proof.
  cbn. repeat constructor; cbn; intuition discriminate.
Qed.

(** X5.  After start-up (the fixed builtins installed, the search path
    scanned, the table sorted) a name is dispatched as the builtins alone
    would dispatch it, unless it is a builtin name that a scanned directory
    holds as well. *)
Theorem startup_dispatch :
  forall readdir is_directory username sh scanned final name,
    add_path readdir sh (install_commands is_directory username) = Some scanned ->
    sort_commands scanned final ->
    (registered (install_commands is_directory username) name = true ->
     registered (skipn 5 scanned) name = false) ->
    shell_find final name = shell_find (install_commands is_directory username) name.
Proof.
  intros readdir is_directory username sh scanned final name Ha [Hp _] Hu.
  set (base := install_commands is_directory username) in *.
  destruct (add_path_shape readdir sh base) as (out & extra & Ho & He & Hnull & Hf & _).
  rewrite Ha in Ho. injection Ho as <-.
  assert (Hsk : skipn 5 scanned = extra) by (rewrite He; reflexivity).
  rewrite Hsk in Hu.
  destruct (registered base name) eqn:Hb.
  - specialize (Hu eq_refl).
    apply (shell_find_rearranged scanned final name _ Hp).
    + intros c Hin Hc. rewrite He in Hin. apply in_app_or in Hin as [Hin|Hin].
      * symmetry. apply shell_find_unique; [apply install_commands_names|exact Hin|exact Hc].
      * exfalso. assert (registered extra name = true)
          by (apply registered_in; now exists c).
        congruence.
    + rewrite He. unfold registered. rewrite existsb_app. fold (registered base name).
      now rewrite Hb.
  - rewrite (shell_find_unregistered base name Hb).
    apply shell_find_agreed_none. intros c Hin Hc.
    eapply Permutation_in in Hin; [|apply Permutation_sym; exact Hp].
    rewrite He in Hin. apply in_app_or in Hin as [Hin|Hin].
    + exfalso. assert (registered base name = true)
        by (apply registered_in; now exists c). congruence.
    + now apply Hnull.
Qed.

Lemma startup_dispatch_witness :
  let readdir := fun p : cstring =>
                   if streq p (cs "/bin") then Some [cs "ls"; cs ".x"] else None in
  let scanned := Demo.registry ++ [{| string_ := cs "ls"; func := None; desc := None |}] in
  add_path readdir Demo.sh_c Demo.registry = Some scanned
  /\ shell_find scanned (cs "cd") = shell_find Demo.registry (cs "cd").
Proof.
  intros readdir scanned. split; [reflexivity|].
  apply (startup_dispatch readdir Demo.is_directory (cs "u") Demo.sh_c scanned scanned).
  - reflexivity.
  - split; [apply Permutation_refl|].
    repeat constructor; unfold comp_shell_commands_le; cbn; discriminate.
  - intros _. reflexivity.
Defined.

(** ** The lexer on whole lines *)

Lemma lex_scan_end g sh f st : lex_scan g (S f) sh st [] = Some st.
Proof. reflexivity. Qed.

Lemma lex_scan_plain_last g sh w f b hs a :
  forallb plain_char w = true ->
  lex_scan g (length w + S f) sh (word_state b hs a) w
  = Some (word_state (b ++ w) hs a).
Proof.
  intros H. rewrite <- (app_nil_r w) at 2.
  now rewrite (lex_scan_plain g sh w (S f) b hs a [] H).
Qed.

Lemma lex_scan_space g sh f b hs a rest :
  lex_scan g (S f) sh (word_state b hs a) (" " :: rest)
  = lex_scan g f sh (new_arg (word_state b hs a)) rest.
Proof. reflexivity. Qed.

Lemma plain_word_chars w : plain_word w = true -> forallb plain_char w = true.
Proof. intros H. now destruct (plain_word_inv w H) as (c & w' & _ & Hall & _). Qed.

Lemma lex_scan_spaces g sh n : forall f hs a rest,
  lex_scan g (n + f) sh (word_state [] hs a) (repeat " " n ++ rest)
  = lex_scan g f sh (word_state [] hs a) rest.
Proof.
  induction n as [|n IH]; intros f hs a rest; [reflexivity|].
  cbn [repeat app Nat.add]. rewrite lex_scan_space. apply IH.
Qed.

Lemma tokenize_blank g sh n tail :
  tail = [] \/ (exists junk, tail = "#" :: junk) \/ (exists junk, tail = newline :: junk) ->
  tokenize g sh (repeat " " n ++ tail) [] = LexArgs [].
Proof.
  intros Ht. unfold tokenize, lex_lines, scan_line.
  change lex_init with (word_state [] false []).
  replace (S (length (repeat " " n ++ tail))) with (n + S (length tail))%nat
    by (rewrite length_app, repeat_length; lia).
  rewrite lex_scan_spaces.
  destruct Ht as [->|[[junk ->]|[junk ->]]]; reflexivity.
Qed.

Lemma lex_words g sh : forall ws w a f rest,
  forallb plain_word (w :: ws) = true ->
  lex_scan g (length (join_words (w :: ws)) + f) sh (word_state [] false a)
    (join_words (w :: ws) ++ rest)
  = lex_scan g f sh
      (word_state (last (w :: ws) []) false (a ++ removelast (w :: ws))) rest.
Proof.
  induction ws as [|w2 ws IH]; intros w a f rest H.
  - cbn [forallb] in H. apply andb_true_iff in H as [Hw _].
    cbn [join_words last removelast]. rewrite app_nil_r.
    now rewrite (lex_scan_plain g sh w f [] false a rest (plain_word_chars _ Hw)).
  - cbn [forallb] in H. apply andb_true_iff in H as [Hw Hr].
    destruct (plain_word_inv w Hw) as (c & w' & Ew & Hall & _).
    change (join_words (w :: w2 :: ws)) with (w ++ " " :: join_words (w2 :: ws)).
    rewrite length_app, <- app_assoc. cbn [length app].
    replace (length w + S (length (join_words (w2 :: ws))) + f)%nat
      with (length w + S (length (join_words (w2 :: ws)) + f))%nat by lia.
    rewrite (lex_scan_plain g sh w _ [] false a _ Hall), lex_scan_space.
    cbn [app].
    replace (new_arg (word_state w false a)) with (word_state [] false (a ++ [w]))
      by (rewrite Ew; reflexivity).
    rewrite (IH w2 (a ++ [w]) f rest Hr).
    change (removelast (w :: w2 :: ws)) with (w :: removelast (w2 :: ws)).
    change (last (w :: w2 :: ws) []) with (last (w2 :: ws) []).
    now rewrite <- app_assoc.
Qed.

Lemma last_plain_word w ws :
  forallb plain_word (w :: ws) = true -> last (w :: ws) [] <> [].
Proof.
  intros H.
  assert (Hin : In (last (w :: ws) []) (w :: ws)).
  { destruct (exists_last (l := w :: ws)) as (l' & x & E); [discriminate|].
    rewrite E, last_last. apply in_or_app. right. now left. }
  rewrite forallb_forall in H. apply H in Hin.
  destruct (plain_word_inv _ Hin) as (c & w' & -> & _). discriminate.
Qed.

Lemma finish_words w ws :
  last (w :: ws) [] <> [] ->
  (if collected (word_state (last (w :: ws) []) false ([] ++ removelast (w :: ws)))
   then LexArgs (args (add_argument
                         (word_state (last (w :: ws) []) false
                            ([] ++ removelast (w :: ws)))))
   else LexArgs (args (word_state (last (w :: ws) []) false
                         ([] ++ removelast (w :: ws)))))
  = LexArgs (w :: ws).
Proof.
  intros Hl. unfold collected, add_argument, word_state. cbn [buffer_ args app].
  destruct (last (w :: ws) []) as [|c l] eqn:E; [contradiction|].
  rewrite <- E. f_equal. symmetry. apply app_removelast_last. discriminate.
Qed.

Lemma tokenize_join_words g sh ws :
  forallb plain_word ws = true ->
  tokenize g sh (join_words ws) [] = LexArgs ws.
Proof.
  intros H. destruct ws as [|w ws]; [reflexivity|].
  unfold tokenize, lex_lines, scan_line. change lex_init with (word_state [] false []).
  replace (S (length (join_words (w :: ws))))
    with (length (join_words (w :: ws)) + 1)%nat by lia.
  rewrite <- (app_nil_r (join_words (w :: ws))) at 2.
  rewrite (lex_words g sh ws w [] 1 [] H). cbn [lex_scan quoted word_state quote_eqb negb].
  apply (finish_words w ws (last_plain_word w ws H)).
Qed.

(** X6.  A line of plain words separated by single spaces is cut into exactly
    these words, in order; spaces before the first word are skipped and the
    end-of-line character ends the line, whatever follows it. *)
Theorem words_between_spaces :
  forall g sh n ws tail,
    forallb plain_word ws = true ->
    tail = [] \/ (exists junk, tail = newline :: junk) ->
    tokenize g sh (repeat " " n ++ join_words ws ++ tail) [] = LexArgs ws.
Proof.
  intros g sh n ws tail H Ht. destruct ws as [|w ws].
  - cbn [join_words app]. apply tokenize_blank.
    destruct Ht as [->|Hj]; [now left|now right; right].
  - unfold tokenize, lex_lines, scan_line. change lex_init with (word_state [] false []).
    replace (S (length (repeat " " n ++ join_words (w :: ws) ++ tail)))
      with (n + (length (join_words (w :: ws)) + S (length tail)))%nat
      by (rewrite !length_app, repeat_length; lia).
    rewrite lex_scan_spaces, (lex_words g sh ws w [] _ tail H).
    pose proof (finish_words w ws (last_plain_word w ws H)) as Hf.
    destruct Ht as [->|[junk ->]]; cbn [lex_scan quoted word_state quote_eqb negb];
      exact Hf.
Qed.

Lemma words_between_spaces_witness :
  tokenize [] Demo.sh_c (cs "  echo hello world") []
  = LexArgs [cs "echo"; cs "hello"; cs "world"].
Proof.
  apply (words_between_spaces [] Demo.sh_c 2 [cs "echo"; cs "hello"; cs "world"] []).
  - reflexivity.
  - now left.
Defined.

(** ** Quotations *)

Lemma lex_char_single g sh b hs a c p' :
  verbatim_single c = true ->
  lex_char g sh (quote_state QSingle b hs a) c p'
  = Jnext (quote_state QSingle (b ++ [c]) hs a).
Proof.
  unfold verbatim_single. rewrite negb_true_iff. intros H.
  unfold lex_char. rewrite H.
  repeat match goal with
         | |- context [ceqb c ?x] => destruct (ceqb c x)
         end; reflexivity.
Qed.

Lemma lex_char_double g sh b hs a c p' :
  verbatim_double c = true ->
  lex_char g sh (quote_state QDouble b hs a) c p'
  = Jnext (quote_state QDouble (b ++ [c]) hs a).
Proof.
  unfold verbatim_double. rewrite negb_true_iff, !orb_false_iff. intros [[H1 H2] H3].
  unfold lex_char. rewrite H1, H2, H3.
  repeat match goal with
         | |- context [ceqb c ?x] => destruct (ceqb c x)
         end; reflexivity.
Qed.

Lemma lex_scan_single g sh t : forall f b hs a rest,
  forallb verbatim_single t = true ->
  lex_scan g (length t + f) sh (quote_state QSingle b hs a) (t ++ rest)
  = lex_scan g f sh (quote_state QSingle (b ++ t) hs a) rest.
Proof.
  induction t as [|c t IH]; intros f b hs a rest H.
  - now rewrite app_nil_r.
  - cbn [forallb] in H. apply andb_true_iff in H as [Hc Ht].
    cbn [length Nat.add app lex_scan]. rewrite (lex_char_single _ _ _ _ _ _ _ Hc).
    rewrite (IH _ _ _ _ _ Ht). now rewrite <- app_assoc.
Qed.

Lemma lex_scan_double g sh t : forall f b hs a rest,
  forallb verbatim_double t = true ->
  lex_scan g (length t + f) sh (quote_state QDouble b hs a) (t ++ rest)
  = lex_scan g f sh (quote_state QDouble (b ++ t) hs a) rest.
Proof.
  induction t as [|c t IH]; intros f b hs a rest H.
  - now rewrite app_nil_r.
  - cbn [forallb] in H. apply andb_true_iff in H as [Hc Ht].
    cbn [length Nat.add app lex_scan]. rewrite (lex_char_double _ _ _ _ _ _ _ Hc).
    rewrite (IH _ _ _ _ _ Ht). now rewrite <- app_assoc.
Qed.

(** The state after a plain command word and a space. *)
Lemma lex_scan_command g sh cmd f rest :
  plain_word cmd = true ->
  lex_scan g (length cmd + S f) sh lex_init (cmd ++ " " :: rest)
  = lex_scan g f sh (word_state [] false [cmd]) rest.
Proof.
  intros Hc. destruct (plain_word_inv _ Hc) as (c & w' & Ew & Hall & _).
  change lex_init with (word_state [] false []).
  rewrite (lex_scan_plain g sh cmd _ [] false [] _ Hall), lex_scan_space.
  cbn [app]. now rewrite Ew.
Qed.

(** X7.  Quoted text is one word copied as it stands: between single quotes
    every character but the single quote, between double quotes every
    character but [$], the backslash and the double quote (spaces, [*], [|],
    [>], [#] and newlines included).  An empty quotation gives no word at
    all.  When the closing quote is missing and no further line can be read
    ([sh -c]) the line is refused as unterminated. *)
Theorem quoted_text_verbatim :
  forall g sh cmd t,
    plain_word cmd = true ->
    (forallb verbatim_single t = true ->
     tokenize g sh (cmd ++ " " :: "'" :: t ++ ["'"]) [] = LexArgs (cmd :: word_if_any t)
     /\ ((shell_interactive sh =? 1)%Z || (shell_interactive sh =? 2)%Z = false ->
         tokenize g sh (cmd ++ " " :: "'" :: t) [] = LexUnterminated))
    /\ (forallb verbatim_double t = true ->
        tokenize g sh (cmd ++ " " :: dquote :: t ++ [dquote]) []
        = LexArgs (cmd :: word_if_any t)).
Proof.
  intros g sh cmd t Hc. split.
  - intros Ht. split.
    + unfold tokenize, lex_lines, scan_line.
      replace (S (length (cmd ++ " " :: "'" :: t ++ ["'"])))
        with (length cmd + S (S (length t + 2)))%nat
        by (rewrite !length_app; cbn [length]; rewrite length_app; cbn [length]; lia).
      rewrite (lex_scan_command g sh cmd _ _ Hc).
      cbn [lex_scan].
      change (lex_char g sh (word_state [] false [cmd]) "'" (t ++ ["'"]))
        with (Jnext (quote_state QSingle [] false [cmd])).
      cbv iota. rewrite (lex_scan_single g sh t 2 [] false [cmd] ["'"] Ht).
      cbn [app]. destruct t; reflexivity.
    + intros Hi. unfold tokenize, lex_lines, scan_line.
      replace (S (length (cmd ++ " " :: "'" :: t)))
        with (length cmd + S (S (length t + 1)))%nat
        by (rewrite !length_app; cbn [length]; lia).
      rewrite (lex_scan_command g sh cmd _ _ Hc).
      cbn [lex_scan].
      change (lex_char g sh (word_state [] false [cmd]) "'" t)
        with (Jnext (quote_state QSingle [] false [cmd])).
      cbv iota. rewrite <- (app_nil_r t) at 2.
      rewrite (lex_scan_single g sh t 1 [] false [cmd] [] Ht).
      cbn [lex_scan quoted quote_state quote_eqb negb]. now rewrite Hi.
  - intros Ht. unfold tokenize, lex_lines, scan_line.
    replace (S (length (cmd ++ " " :: dquote :: t ++ [dquote])))
      with (length cmd + S (S (length t + 2)))%nat
      by (rewrite !length_app; cbn [length]; rewrite length_app; cbn [length]; lia).
    rewrite (lex_scan_command g sh cmd _ _ Hc).
    cbn [lex_scan].
    change (lex_char g sh (word_state [] false [cmd]) dquote (t ++ [dquote]))
      with (Jnext (quote_state QDouble [] false [cmd])).
    cbv iota. rewrite (lex_scan_double g sh t 2 [] false [cmd] [dquote] Ht).
    cbn [app]. destruct t; reflexivity.
Qed.

Lemma quoted_text_verbatim_witness :
  tokenize [] Demo.sh_c (cs "echo '$HOME * | > # x'") []
  = LexArgs [cs "echo"; cs "$HOME * | > # x"]
  /\ tokenize [] Demo.sh_c (cs "echo ''") [] = LexArgs [cs "echo"].
Proof.
  destruct (quoted_text_verbatim [] Demo.sh_c (cs "echo") (cs "$HOME * | > # x") eq_refl)
    as [H1 _].
  destruct (quoted_text_verbatim [] Demo.sh_c (cs "echo") [] eq_refl) as [H2 _].
  split; [apply H1|apply H2]; reflexivity.
Defined.

(** ** Values, comments and stars *)

Lemma lex_char_dollar_name g sh st name rest :
  quoted st <> QSingle ->
  backtick st = false ->
  name <> [] ->
  forallb variable_char name = true ->
  (length name <= 100)%nat ->
  stops_name rest = true ->
  lex_char g sh st "$" (name ++ rest) = Jcontinue (expand_var g sh (Some name) st) rest.
Proof.
  intros Hq Hb Hne Hv Hlen Hstop.
  unfold lex_char. cbn [ceqb Ascii.eqb Bool.eqb andb].
  replace (quote_eqb (quoted st) QSingle) with false
    by (destruct (quoted st); try reflexivity; contradiction).
  rewrite Hb. unfold read_var.
  destruct name as [|c name]; [contradiction|].
  pose proof Hv as Hv'. cbn [forallb] in Hv'. apply andb_true_iff in Hv' as [Hc _].
  cbn [app hd].
  destruct (ceqb c "{") eqn:E; [apply ceqb_eq in E; subst; discriminate|].
  change (c :: name ++ rest) with ((c :: name) ++ rest).
  rewrite (read_bare_name (c :: name) rest None 0 Hv Hlen (or_intror Hstop)).
  cbn [fold_left var_store]. now rewrite fold_var_store.
Qed.

Lemma resolve_environment sh name :
  streq name (cs "?") = false -> is_number name = false ->
  resolve sh name = getenv sh name.
Proof. intros H1 H2. unfold resolve. now rewrite H1, H2. Qed.

(** X8.  The value of a variable is inserted as it stands and is not read
    again: whatever characters it holds (spaces, quotes, [$], operators) it
    makes one word, bare or between double quotes, and an empty value makes
    no word. *)
Theorem value_inserted_as_is :
  forall g sh cmd name v,
    plain_word cmd = true ->
    name <> [] ->
    forallb variable_char name = true ->
    (length name <= 100)%nat ->
    streq name (cs "?") = false ->
    is_number name = false ->
    getenv sh name = Some v ->
    tokenize g sh (cmd ++ " " :: "$" :: name) [] = LexArgs (cmd :: word_if_any v)
    /\ tokenize g sh (cmd ++ " " :: dquote :: "$" :: name ++ [dquote]) []
       = LexArgs (cmd :: word_if_any v).
Proof.
  intros g sh cmd name v Hc Hne Hv Hlen Hs Hn He.
  assert (Hr : resolve sh name = Some v) by (now rewrite resolve_environment).
  split.
  - unfold tokenize, lex_lines, scan_line.
    replace (S (length (cmd ++ " " :: "$" :: name)))
      with (length cmd + S (S (S (length name))))%nat
      by (rewrite !length_app; cbn [length]; lia).
    rewrite (lex_scan_command g sh cmd _ _ Hc). cbn [lex_scan].
    rewrite <- (app_nil_r name) at 1.
    rewrite (lex_char_dollar_name g sh (word_state [] false [cmd]) name []);
      try assumption; try reflexivity; try discriminate.
    unfold expand_var. cbn [var_contents]. rewrite Hr.
    cbn. destruct v; reflexivity.
  - unfold tokenize, lex_lines, scan_line.
    replace (S (length (cmd ++ " " :: dquote :: "$" :: name ++ [dquote])))
      with (length cmd + S (S (S (S (S (length name))))))%nat
      by (rewrite !length_app; cbn [length]; rewrite length_app; cbn [length]; lia).
    rewrite (lex_scan_command g sh cmd _ _ Hc). cbn [lex_scan].
    change (lex_char g sh (word_state [] false [cmd]) dquote ("$" :: name ++ [dquote]))
      with (Jnext (quote_state QDouble [] false [cmd])).
    cbv iota.
    rewrite (lex_char_dollar_name g sh (quote_state QDouble [] false [cmd]) name [dquote]);
      try assumption; try reflexivity; try discriminate.
    unfold expand_var. cbn [var_contents]. rewrite Hr.
    cbn. destruct v; reflexivity.
Qed.

Lemma value_inserted_as_is_witness :
  tokenize [] (set_environ [(cs "V", cs "a b $V | '")] Demo.sh_c) (cs "echo $V") []
  = LexArgs [cs "echo"; cs "a b $V | '"].
Proof.
  apply (value_inserted_as_is [] (set_environ [(cs "V", cs "a b $V | '")] Demo.sh_c)
           (cs "echo") (cs "V") (cs "a b $V | '"));
    try reflexivity; try discriminate.
  cbn; lia.
Defined.

(** X9.  A [#] where a word would begin ends the line: what follows it,
    whatever it is, is not read; a [#] inside a word is an ordinary
    character. *)
Theorem comment_ends_line :
  forall g sh cmd junk,
    plain_word cmd = true ->
    tokenize g sh (cmd ++ " " :: "#" :: junk) [] = LexArgs [cmd]
    /\ tokenize g sh ("#" :: junk) [] = LexArgs []
    /\ (forall w, forallb plain_char w = true ->
                  tokenize g sh (cmd ++ "#" :: w) [] = LexArgs [cmd ++ "#" :: w]).
Proof.
  intros g sh cmd junk Hc. split; [|split].
  - unfold tokenize, lex_lines, scan_line.
    replace (S (length (cmd ++ " " :: "#" :: junk)))
      with (length cmd + S (S (S (length junk))))%nat
      by (rewrite !length_app; cbn [length]; lia).
    now rewrite (lex_scan_command g sh cmd _ _ Hc).
  - reflexivity.
  - intros w Hw. destruct (plain_word_inv _ Hc) as (c & w' & Ew & Hall & _).
    unfold tokenize, lex_lines, scan_line. change lex_init with (word_state [] false []).
    replace (S (length (cmd ++ "#" :: w)))
      with (length cmd + S (length w + 1))%nat
      by (rewrite !length_app; cbn [length]; lia).
    rewrite (lex_scan_plain g sh cmd _ [] false [] _ Hall). cbn [app lex_scan].
    replace (lex_char g sh (word_state cmd false []) "#" w)
      with (Jnext (word_state (cmd ++ ["#"]) false []))
      by (rewrite Ew; reflexivity).
    rewrite (lex_scan_plain_last g sh w 0 _ false [] Hw).
    rewrite <- app_assoc. cbn [app]. rewrite Ew. reflexivity.
Qed.

Lemma comment_ends_line_witness :
  tokenize [] Demo.sh_c (cs "ls # 'not a quote") [] = LexArgs [cs "ls"].
Proof.
  destruct (comment_ends_line [] Demo.sh_c (cs "ls") (cs " 'not a quote") eq_refl)
    as [H _].
  exact H.
Defined.

Lemma lex_scan_star g sh f b a rest :
  lex_scan g (S f) sh (word_state b false a) ("*" :: rest)
  = lex_scan g f sh (word_state (b ++ STAR_TOKEN) true a) rest.
Proof. reflexivity. Qed.

Lemma lex_scan_star_again g sh f b a rest :
  lex_scan g (S f) sh (word_state b true a) ("*" :: rest)
  = lex_scan g f sh (word_state (b ++ ["*"]) true a) rest.
Proof. reflexivity. Qed.

(** X10.  One marker per word: the first unquoted [*] of a word becomes the
    wildcard marker and a second one stays a literal [*]; the next word
    starts afresh. *)
Theorem one_wildcard_per_word :
  forall g sh a b c,
    forallb plain_char a = true ->
    forallb plain_char b = true ->
    forallb plain_char c = true ->
    tokenize g sh (a ++ "*" :: b ++ "*" :: c) []
    = LexArgs [a ++ STAR_TOKEN ++ b ++ "*" :: c]
    /\ tokenize g sh (a ++ "*" :: " " :: b ++ "*" :: c) []
       = LexArgs [a ++ STAR_TOKEN; b ++ STAR_TOKEN ++ c].
Proof.
  intros g sh a b c Ha Hb Hc. split.
  - unfold tokenize, lex_lines, scan_line. change lex_init with (word_state [] false []).
    replace (S (length (a ++ "*" :: b ++ "*" :: c)))
      with (length a + S (length b + S (length c + 1)))%nat
      by (rewrite !length_app; cbn [length]; rewrite length_app; cbn [length]; lia).
    rewrite (lex_scan_plain g sh a _ [] false [] _ Ha), lex_scan_star.
    rewrite (lex_scan_plain g sh b _ _ true [] _ Hb), lex_scan_star_again.
    rewrite (lex_scan_plain_last g sh c 0 _ true [] Hc).
    cbn [quoted word_state quote_eqb negb app].
    unfold collected, add_argument. cbn [buffer_ args app].
    rewrite <- !app_assoc. cbn [app].
    destruct a; reflexivity.
  - unfold tokenize, lex_lines, scan_line. change lex_init with (word_state [] false []).
    replace (S (length (a ++ "*" :: " " :: b ++ "*" :: c)))
      with (length a + S (S (length b + S (length c + 1))))%nat
      by (rewrite !length_app; cbn [length]; rewrite length_app; cbn [length]; lia).
    rewrite (lex_scan_plain g sh a _ [] false [] _ Ha), lex_scan_star, lex_scan_space.
    replace (new_arg (word_state (([] ++ a) ++ STAR_TOKEN) true []))
      with (word_state [] false [a ++ STAR_TOKEN])
      by (destruct a; reflexivity).
    rewrite (lex_scan_plain g sh b _ _ false _ _ Hb), lex_scan_star.
    rewrite (lex_scan_plain_last g sh c 0 _ true _ Hc).
    cbn [quoted word_state quote_eqb negb app].
    unfold collected, add_argument. cbn [buffer_ args app].
    rewrite <- !app_assoc.
    destruct b; reflexivity.
Qed.

Lemma one_wildcard_per_word_witness :
  tokenize [] Demo.sh_c (cs "a*b*c") [] = LexArgs [cs "a" ++ STAR_TOKEN ++ cs "b*c"].
Proof.
  exact (proj1 (one_wildcard_per_word [] Demo.sh_c (cs "a") (cs "b") (cs "c")
                  eq_refl eq_refl eq_refl)).
Defined.

(** ** Lines that run nothing *)

Lemma history_lookup_plain hist buffer :
  ceqb (hd NUL buffer) "!" = false -> history_lookup hist buffer = Some buffer.
Proof.
  destruct buffer as [|c rest]; [reflexivity|]. cbn [hd]. intros H.
  unfold history_lookup.
  destruct c as [[] [] [] [] [] [] [] []]; try reflexivity. discriminate.
Qed.

Lemma lex_history_nil g append sh st buffer hist :
  lex_history g append sh st buffer [] hist = hist.
Proof.
  cbn [lex_history]. destruct (scan_line g sh st buffer) as [st'|]; [|reflexivity].
  now destruct (negb (quote_eqb (quoted st') QNone)).
Qed.

Lemma shell_exec_history_plain g hist insert append sh buffer :
  ceqb (hd NUL buffer) "!" = false ->
  shell_exec_history g hist insert append sh buffer []
  = if negb (ceqb (hd NUL buffer) " ") && negb (ceqb (hd NUL buffer) newline)
    then insert hist buffer
    else hist.
Proof.
  intros H. unfold shell_exec_history, history_prelude.
  rewrite (history_lookup_plain hist buffer H). apply lex_history_nil.
Qed.

(** X11.  A line made of spaces only, or of spaces followed by a comment or
    by the end-of-line character, runs nothing: [shell_exec] returns -1
    with the shell and its children as they were and [$?] keeps its value.
    The line is recorded in the history unless it begins with a space or
    with the end-of-line character, and a script goes on with the history so
    left: exactly as if the line were not there when it begins with a space
    or with the end-of-line character. *)
Theorem blank_line_is_skipped :
  forall commands execvp signal_code g listing insert append (hist : list cstring)
         sched sh w n tail lines,
    tail = [] \/ (exists junk, tail = "#" :: junk) \/ (exists junk, tail = newline :: junk) ->
    shell_exec commands execvp signal_code g listing hist sched sh w
      (repeat " " n ++ tail) [] = Returned (-1) sh w
    /\ main_step commands execvp signal_code g listing hist sched sh w
         (repeat " " n ++ tail) [] = Returned (-1) sh w
    /\ shell_exec_history g hist insert append sh (repeat " " n ++ tail) []
       = (if (0 <? n)%nat || ceqb (hd NUL tail) newline
          then hist
          else insert hist tail)
    /\ run_script commands execvp signal_code g listing insert append
         ((repeat " " n ++ tail) :: lines) hist sh w
       = run_script commands execvp signal_code g listing insert append lines
           (if (0 <? n)%nat || ceqb (hd NUL tail) newline then hist else insert hist tail)
           sh w.
Proof.
  intros commands execvp signal_code g listing insert append hist sched sh w n tail lines Ht.
  assert (Hbang : ceqb (hd NUL (repeat " " n ++ tail)) "!" = false).
  { destruct n; [|reflexivity].
    destruct Ht as [->|[[junk ->]|[junk ->]]]; reflexivity. }
  assert (Hx : forall sched,
             shell_exec commands execvp signal_code g listing hist sched sh w
               (repeat " " n ++ tail) [] = Returned (-1) sh w).
  { intros s. unfold shell_exec. rewrite (history_lookup_plain _ _ Hbang).
    now rewrite (tokenize_blank g sh n tail Ht). }
  assert (Hh : shell_exec_history g hist insert append sh (repeat " " n ++ tail) []
               = (if (0 <? n)%nat || ceqb (hd NUL tail) newline
                  then hist
                  else insert hist tail)).
  { rewrite (shell_exec_history_plain g hist insert append sh _ Hbang).
    destruct n as [|n]; [|reflexivity].
    cbn [repeat app Nat.ltb Nat.leb orb].
    destruct Ht as [->|[[junk ->]|[junk ->]]]; reflexivity. }
  split; [apply Hx|]. split; [|split].
  - unfold main_step. now rewrite Hx.
  - exact Hh.
  - cbn [run_script]. unfold main_step. rewrite Hx. cbn [keep_status].
    change (0 <=? -1)%Z with false. cbv iota. now rewrite Hh.
Qed.

Lemma blank_line_is_skipped_witness :
  Demo.turn [] Demo.sh_script Demo.world (cs "   # nothing to do")
  = Returned (-1) Demo.sh_script Demo.world
  /\ shell_exec_history Demo.garbage [cs "ls"] (fun h l => h ++ [l]) (fun h l => h)
       Demo.sh_script (cs "# nothing to do") []
     = [cs "ls"; cs "# nothing to do"].
Proof.
  split.
  - exact (proj1 (proj2 (blank_line_is_skipped Demo.registry Demo.programs Demo.signal_code
                           Demo.garbage Demo.listing (fun h l => h ++ [l]) (fun h l => h)
                           [] [] Demo.sh_script Demo.world 3
                           (cs "# nothing to do") []
                           (or_intror (or_introl (ex_intro _ (cs " nothing to do") eq_refl)))))).
  - exact (proj1 (proj2 (proj2
             (blank_line_is_skipped Demo.registry Demo.programs Demo.signal_code
                Demo.garbage Demo.listing (fun h l => h ++ [l]) (fun h l => h)
                [cs "ls"] [] Demo.sh_script Demo.world 0
                (cs "# nothing to do") []
                (or_intror (or_introl (ex_intro _ (cs " nothing to do") eq_refl))))))).
Defined.

(** ** Stages *)

Lemma laid_out_init : stages_laid_out plan_init [] [].
Proof.
  unfold stages_laid_out. cbn.
  split; [reflexivity|]. split; [reflexivity|]. split; [now exists []|].
  split; [reflexivity|]. split; [reflexivity|]. split; [|reflexivity].
  intros k Hk. lia.
Qed.

Lemma laid_out_push ps done cur w :
  stages_laid_out ps done cur -> stages_laid_out (push_arg ps w) done (cur ++ [w]).
Proof.
  intros (Hc & Hn & (pre & Ha & Hs) & Hargc & Hhigh & Hdone & Hout).
  unfold stages_laid_out. cbn [push_arg cmdi next_is_file argv arg_starts argcs output_files].
  unfold upd. rewrite Hc.
  split; [reflexivity|]. split; [exact Hn|]. split; [|split; [|split; [|split]]].
  - exists pre. split; [|exact Hs]. now rewrite Ha, map_app, app_assoc.
  - rewrite Nat.eqb_refl, length_app. cbn [length]. rewrite <- Hc, Hargc in *.
    rewrite Hc in *. lia.
  - intros k Hk. destruct (Nat.eqb_spec k (length done)); [lia|]. now apply Hhigh.
  - intros k Hk. destruct (Nat.eqb_spec k (length done)); [lia|].
    destruct (Hdone k Hk) as (Hak & pre' & tail & Hv & Hst).
    split; [exact Hak|]. exists pre', (tail ++ [Some w]). split; [|exact Hst].
    rewrite Hv. rewrite <- !app_assoc. reflexivity.
  - exact Hout.
Qed.

Lemma laid_out_next ps done cur :
  stages_laid_out ps done cur -> stages_laid_out (next_stage ps) (done ++ [cur]) [].
Proof.
  intros (Hc & Hn & (pre & Ha & Hs) & Hargc & Hhigh & Hdone & Hout).
  unfold stages_laid_out. cbn [next_stage cmdi next_is_file argv arg_starts argcs output_files].
  unfold upd. rewrite Hc, length_app. cbn [length].
  replace (length done + 1)%nat with (S (length done)) by lia.
  split; [reflexivity|]. split; [exact Hn|]. split; [|split; [|split; [|split]]].
  - exists (argv ps ++ [None]). rewrite Nat.eqb_refl, app_nil_r, length_app.
    cbn [map length]. split; [reflexivity|]. f_equal. lia.
  - cbn [length]. apply Hhigh. lia.
  - intros k Hk. apply Hhigh. lia.
  - intros k Hk. destruct (Nat.eqb_spec k (S (length done))); [lia|].
    destruct (Nat.eq_dec k (length done)) as [->|Hne].
    + rewrite nth_middle. split; [exact Hargc|].
      exists pre, []. split; [|exact Hs]. rewrite Ha. now rewrite <- app_assoc.
    + assert (Hk' : (k < length done)%nat) by lia.
      destruct (Hdone k Hk') as (Hak & pre' & tail & Hv & Hst).
      rewrite app_nth1 by exact Hk'. split; [exact Hak|].
      exists pre', (tail ++ [None]). split; [|exact Hst].
      rewrite Hv. rewrite <- !app_assoc. reflexivity.
  - exact Hout.
Qed.

Lemma plan_token_pipe listing ps t :
  next_is_file ps = 0%nat -> streq t PIPE_TOKEN = true ->
  plan_token listing ps t = next_stage ps.
Proof.
  intros Hn Ht. apply streq_eq in Ht. subst t. unfold plan_token. now rewrite Hn.
Qed.

Lemma split_pipes_nonempty toks : exists s ss, split_pipes toks = s :: ss.
Proof.
  destruct toks as [|t toks]; [now exists [], []|].
  cbn [split_pipes]. destruct (streq t PIPE_TOKEN); [now eexists _, _|].
  destruct (split_pipes toks); now eexists _, _.
Qed.

Lemma laid_out_tokens listing toks : forall ps done cur,
  stages_laid_out ps done cur ->
  forallb stage_token toks = true ->
  exists done' cur',
    stages_laid_out (fold_left (plan_token listing) toks ps) done' cur'
    /\ forall s ss, split_pipes toks = s :: ss ->
                    done' ++ [cur'] = done ++ (cur ++ s) :: ss.
Proof.
  induction toks as [|t toks IH]; intros ps done cur Hinv Hall.
  - exists done, cur. split; [exact Hinv|].
    intros s ss E. injection E as <- <-. now rewrite app_nil_r.
  - cbn [forallb] in Hall. apply andb_true_iff in Hall as [Ht Hall].
    cbn [fold_left split_pipes].
    assert (Hn : next_is_file ps = 0%nat) by (now destruct Hinv as (_ & Hn & _)).
    destruct (streq t PIPE_TOKEN) eqn:E.
    + rewrite (plan_token_pipe listing ps t Hn E).
      destruct (IH _ _ _ (laid_out_next _ _ _ Hinv) Hall) as (d' & c' & Hi & Hs).
      exists d', c'. split; [exact Hi|].
      intros s ss Es. injection Es as <- <-.
      destruct (split_pipes_nonempty toks) as (s' & ss' & E').
      rewrite (Hs _ _ E'), E', app_nil_r. cbn [app]. now rewrite <- app_assoc.
    + unfold stage_token in Ht. rewrite E, orb_false_r in Ht.
      rewrite (plan_token_plain listing ps t Ht Hn).
      destruct (IH _ _ _ (laid_out_push _ _ _ t Hinv) Hall) as (d' & c' & Hi & Hs).
      exists d', c'. split; [exact Hi|].
      intros s ss Es.
      destruct (split_pipes_nonempty toks) as (s' & ss' & E').
      rewrite E' in Es. injection Es as <- <-.
      rewrite (Hs _ _ E'). now rewrite <- app_assoc.
Qed.

Lemma laid_out_args ps done cur k :
  stages_laid_out ps done cur ->
  (k <= length done)%nat ->
  raw_args ps (argv ps ++ [None]) k = nth k (done ++ [cur]) []
  /\ argcs ps k = length (nth k (done ++ [cur]) []).
Proof.
  intros (Hc & Hn & (pre & Ha & Hs) & Hargc & Hhigh & Hdone & Hout) Hk.
  unfold raw_args, stage.
  destruct (Nat.eq_dec k (length done)) as [->|Hne].
  - rewrite nth_middle, Hs. cbn [option_map]. split; [|exact Hargc].
    rewrite Ha, <- app_assoc, skipn_app, skipn_all, Nat.sub_diag.
    cbn [app skipn]. apply until_null_map_some.
  - assert (Hk' : (k < length done)%nat) by lia.
    destruct (Hdone k Hk') as (Hak & pre' & tail & Hv & Hst).
    rewrite app_nth1 by exact Hk'. rewrite Hst. cbn [option_map]. split; [|exact Hak].
    rewrite Hv, <- !app_assoc, skipn_app, skipn_all, Nat.sub_diag.
    cbn [app skipn]. apply until_null_map_some.
Qed.

(** X12.  For a token list of plain words and pipe markers the stages are the
    runs of words between the markers, empty runs included: there is one
    stage more than markers, stage [k] reads exactly the words of run [k]
    from its place in [argv], [argcs[k]] counts them, and no stage has an
    output file. *)
Theorem stages_are_runs_between_pipes :
  forall listing toks,
    forallb stage_token toks = true ->
    let ps := plan listing toks in
    let runs := split_pipes toks in
    S (cmdi ps) = length runs
    /\ forall k, (k < length runs)%nat ->
                 raw_args ps (argv ps ++ [None]) k = nth k runs []
                 /\ argcs ps k = length (nth k runs [])
                 /\ output_files ps k = None.
Proof.
  intros listing toks Hall ps runs.
  destruct (laid_out_tokens listing toks plan_init [] [] laid_out_init Hall)
    as (done & cur & Hinv & Hs).
  destruct (split_pipes_nonempty toks) as (s & ss & E).
  specialize (Hs s ss E). cbn [app] in Hs.
  fold (plan listing toks) in Hinv. fold ps in Hinv.
  assert (Hr : runs = done ++ [cur]) by (unfold runs; now rewrite E, Hs).
  assert (Hc : cmdi ps = length done) by (now destruct Hinv as (Hc & _)).
  rewrite Hr, length_app. cbn [length]. split; [lia|].
  intros k Hk.
  destruct (laid_out_args ps done cur k Hinv) as [Ha Hn]; [lia|].
  repeat split; try assumption.
  now destruct Hinv as (_ & _ & _ & _ & _ & _ & Hout).
Qed.

Lemma stages_are_runs_between_pipes_witness :
  let ps := plan Demo.listing [cs "ls"; PIPE_TOKEN; cs "wc"; cs "-l"] in
  cmdi ps = 1%nat
  /\ raw_args ps (argv ps ++ [None]) 0 = [cs "ls"]
  /\ raw_args ps (argv ps ++ [None]) 1 = [cs "wc"; cs "-l"].
Proof.
  intros ps.
  destruct (stages_are_runs_between_pipes Demo.listing
              [cs "ls"; PIPE_TOKEN; cs "wc"; cs "-l"] eq_refl) as [Hc Hk].
  split; [reflexivity|].
  split; [apply (Hk 0%nat)|apply (Hk 1%nat)]; cbn; lia.
Defined.

(** ** Descriptors, terminal and exit *)

Section WiringFacts.

Variable commands : list command.
Variable execvp : ShellState -> stdin_src -> stdout_dst -> list cstring -> option outcome.
Variable signal_code : Z -> Z.

Lemma fork_run_world sh w cin cout a pid w1 :
  fork_run commands execvp signal_code sh w cin cout a = Some (pid, w1) ->
  w_pipes w1 = w_pipes w /\ w_tty_pgrp w1 = w_tty_pgrp w
  /\ exists c, w_children w1 = w_children w ++ [c] /\ child_io c = (cin, cout).
Proof.
  unfold fork_run, obind. destruct a as [x|]; [|discriminate].
  destruct (run_cmd _ _ _ _ _ _ x) as [st|]; [|discriminate].
  intros H; injection H as <- <-. repeat split. eexists; split; reflexivity.
Qed.

Lemma spawn_middle_wiring ps a sh :
  forall js last w last' w1,
    spawn_middle commands execvp signal_code ps a sh js last w = Some (last', w1) ->
    w_pipes w = S last ->
    w_pipes w1 = (w_pipes w + length js)%nat
    /\ last' = (last + length js)%nat
    /\ exists new, w_children w1 = w_children w ++ new
                   /\ map child_io new
                      = map (fun i => (StdinPipe (last + i), StdoutPipe (last + S i)))
                          (seq 0 (length js)).
Proof.
  induction js as [|j js IH]; intros last w last' w1 H Hp.
  - injection H as <- <-. cbn [length]. rewrite !Nat.add_0_r.
    repeat split. exists []. now rewrite app_nil_r.
  - cbn [spawn_middle pipe] in H. unfold obind in H.
    match type of H with
    | context [fork_run _ _ _ ?s ?w' ?i ?o ?st] =>
        destruct (fork_run commands execvp signal_code s w' i o st)
          as [[pid w2]|] eqn:Hf; [|discriminate]
    end.
    apply fork_run_world in Hf as (Hpipes & _ & c & Hc & Hio).
    cbn [w_pipes w_children] in Hpipes, Hc.
    apply IH in H as (Hp1 & Hl & new & Hn & Hm); [|now rewrite Hpipes, Hp].
    cbn [length]. split; [rewrite Hp1, Hpipes; lia|]. split; [rewrite Hl, Hp; lia|].
    exists (c :: new). split; [rewrite Hn, Hc; now rewrite <- app_assoc|].
    cbn [seq map]. rewrite Hio, Hm, Hp. f_equal.
    + f_equal; f_equal; lia.
    + rewrite <- seq_shift, map_map. apply map_ext. intros i.
      f_equal; f_equal; lia.
Qed.

End WiringFacts.

(** X13.  In a pipeline of [cmdi + 1] stages the shell makes [cmdi] pipes and
    every stage reads the pipe that the stage before it writes: the first
    stage keeps the standard input of the shell, stage [k] has pipe [k - 1]
    as input and pipe [k] as output, and the last stage, and only the last,
    writes to the planned output file (or to the standard output of the
    shell). *)
Theorem pipeline_wiring :
  forall commands execvp signal_code ps a sh w child_pid w1,
    (0 < cmdi ps)%nat ->
    spawn_pipeline commands execvp signal_code ps a sh w = Some (child_pid, w1) ->
    w_pipes w1 = (w_pipes w + cmdi ps)%nat
    /\ exists new,
        w_children w1 = w_children w ++ new
        /\ map child_io new
           = map (fun k => (stage_stdin (w_pipes w) k,
                            stage_stdout (w_pipes w) (cmdi ps) (redirect ps (cmdi ps)) k))
               (seq 0 (S (cmdi ps))).
Proof.
  intros commands execvp signal_code ps a sh w child_pid w1 Hc H.
  unfold spawn_pipeline, pipe, obind in H.
  match type of H with
  | context [fork_run _ _ _ ?s ?w' ?i ?o ?st] =>
      destruct (fork_run commands execvp signal_code s w' i o st)
        as [[pid0 w2]|] eqn:Hf; [|discriminate]
  end.
  match type of H with
  | context [spawn_middle _ _ _ ?p ?a' ?s ?js ?l ?w'] =>
      destruct (spawn_middle commands execvp signal_code p a' s js l w')
        as [[last w3]|] eqn:Hm; [|discriminate]
  end.
  match type of H with
  | context [fork_run _ _ _ ?s ?w' ?i ?o ?st] =>
      destruct (fork_run commands execvp signal_code s w' i o st)
        as [[pid1 w4]|] eqn:Hl; [|discriminate]
  end.
  injection H as <- <-.
  apply fork_run_world in Hf as (Hp0 & _ & c0 & Hc0 & Hio0).
  cbn [w_pipes w_children] in Hp0, Hc0.
  apply spawn_middle_wiring in Hm as (Hp1 & Hlast & mid & Hmid & Hiom); [|exact Hp0].
  apply fork_run_world in Hl as (Hp2 & _ & cl & Hcl & Hiol).
  rewrite length_seq in Hp1, Hlast, Hiom.
  destruct (cmdi ps) as [|m] eqn:E; [lia|].
  replace (S m - 1)%nat with m in * by lia.
  split; [rewrite Hp2, Hp1, Hp0; lia|].
  exists (c0 :: mid ++ [cl]). split.
  - rewrite Hcl, Hmid, Hc0. now rewrite <- !app_assoc.
  - change (seq 0 (S (S m))) with (0%nat :: seq 1 (S m)).
    rewrite seq_S. cbn [map]. rewrite !map_app. cbn [map].
    rewrite Hio0, Hiom, Hiol, Hlast. f_equal.
    + unfold stage_stdin, stage_stdout. cbn [Nat.eqb]. now rewrite Nat.add_0_r.
    + f_equal.
      * rewrite <- seq_shift, map_map. apply map_ext_in. intros i Hi.
        apply in_seq in Hi. unfold stage_stdin, stage_stdout. cbn [Nat.eqb].
        destruct (Nat.eqb_spec i m); [lia|].
        f_equal; f_equal; lia.
      * unfold stage_stdin, stage_stdout. cbn [Nat.add Nat.eqb].
        rewrite Nat.eqb_refl. do 3 f_equal. lia.
Qed.

Lemma pipeline_wiring_witness :
  exists child_pid w1 new,
    spawn_pipeline Demo.registry Demo.programs Demo.signal_code
      (plan Demo.listing [cs "ls"; PIPE_TOKEN; cs "true"; PIPE_TOKEN; cs "false"])
      [Some (cs "ls"); None; Some (cs "true"); None; Some (cs "false"); None]
      Demo.sh_c Demo.world = Some (child_pid, w1)
    /\ w_children w1 = new
    /\ map child_io new
       = [(StdinInherited, StdoutPipe 0); (StdinPipe 0, StdoutPipe 1);
          (StdinPipe 1, StdoutInherited)].
Proof.
  eexists _, _, _. split; [vm_compute; reflexivity|]. split; [reflexivity|].
  match goal with
  | |- map child_io (w_children ?w1) = _ =>
      destruct (pipeline_wiring Demo.registry Demo.programs Demo.signal_code
                  (plan Demo.listing [cs "ls"; PIPE_TOKEN; cs "true"; PIPE_TOKEN; cs "false"])
                  [Some (cs "ls"); None; Some (cs "true"); None; Some (cs "false"); None]
                  Demo.sh_c Demo.world 10%Z w1)
        as (_ & new & Hn & Hio)
  end.
  - vm_compute; lia.
  - vm_compute; reflexivity.
  - cbn [w_children Demo.world app] in Hn. rewrite Hn. exact Hio.
Defined.

(** ** Builtins on a line of their own *)

Lemma nth_last {A : Type} (l : list A) (d : A) : nth (length l - 1) l d = last l d.
Proof.
  induction l as [|x l IH]; [reflexivity|].
  destruct l as [|y l]; [reflexivity|].
  change (last (x :: y :: l) d) with (last (y :: l) d). rewrite <- IH.
  cbn [length]. replace (S (S (length l)) - 1)%nat with (S (length l)) by lia.
  replace (S (length l) - 1)%nat with (length l) by lia. reflexivity.
Qed.

Lemma push_args_fields ws : forall ps,
  argv (fold_left push_arg ws ps) = argv ps ++ map Some ws
  /\ cmdi (fold_left push_arg ws ps) = cmdi ps
  /\ argcs (fold_left push_arg ws ps) (cmdi ps) = (argcs ps (cmdi ps) + length ws)%nat
  /\ arg_starts (fold_left push_arg ws ps) = arg_starts ps.
Proof.
  induction ws as [|w ws IH]; intros ps.
  - cbn [fold_left map length]. rewrite app_nil_r, Nat.add_0_r. auto.
  - cbn [fold_left]. destruct (IH (push_arg ps w)) as (Ha & Hc & Hn & Hs).
    rewrite Ha, Hc, Hs. cbn [push_arg cmdi argv arg_starts]. repeat split.
    + now rewrite <- app_assoc.
    + cbn [push_arg cmdi] in Hn. rewrite Hn. cbn [argcs push_arg]. unfold upd.
      rewrite Nat.eqb_refl. cbn [length]. lia.
Qed.

Lemma plan_plain_words listing ws : forall ps,
  forallb plain_word ws = true -> next_is_file ps = 0%nat ->
  fold_left (plan_token listing) ws ps = fold_left push_arg ws ps.
Proof.
  induction ws as [|w ws IH]; intros ps H Hn; [reflexivity|].
  cbn [forallb] in H. apply andb_true_iff in H as [Hw Hr].
  cbn [fold_left]. rewrite (plan_token_plain listing ps w Hw Hn).
  now apply IH.
Qed.

Lemma plan_words_fields listing ws :
  forallb plain_word ws = true ->
  argv (plan listing ws) = map Some ws
  /\ cmdi (plan listing ws) = 0%nat
  /\ argcs (plan listing ws) 0%nat = length ws
  /\ arg_starts (plan listing ws) 0%nat = Some 0%nat.
Proof.
  intros H. unfold plan. rewrite (plan_plain_words listing ws plan_init H eq_refl).
  destruct (push_args_fields ws plan_init) as (Ha & Hc & Hn & Hs).
  rewrite Ha, Hc, Hs. cbn [plan_init cmdi] in Hn. rewrite Hn. auto.
Qed.

Lemma last_arg_words ps w ws :
  argv ps = map Some (w :: ws) -> last_arg ps = Some (last (w :: ws) []).
Proof.
  intros Ha. unfold last_arg. rewrite Ha.
  rewrite app_nth1 by (rewrite length_map; cbn [length]; lia).
  rewrite (nth_indep _ None (Some ([] : cstring)))
    by (rewrite length_map; cbn [length]; lia).
  rewrite map_nth, length_map. f_equal. apply nth_last.
Qed.

(** A line of plain words whose first word has a handler: the handler is
    called with the words and its answer is the line's. *)
Lemma builtin_line commands execvp signal_code g listing hist sched sh w name rest f :
  forallb plain_word (name :: rest) = true ->
  ceqb (hd NUL name) "!" = false ->
  streq (last (name :: rest) []) (cs "&") = false ->
  shell_find commands name = Some f ->
  shell_exec commands execvp signal_code g listing hist sched sh w
    (join_words (name :: rest)) []
  = match f (S (length rest)) (map Some (name :: rest) ++ [None]) sh with
    | HReturn r sh' => Returned (int_of_uint32 r) sh' w
    | HExit code => ShellExit code
    | HUndefined => Undefined
    end.
Proof.
  intros Hw Hbang Hamp Hf. unfold shell_exec.
  rewrite history_lookup_plain.
  2:{ cbn [forallb] in Hw. apply andb_true_iff in Hw as [Hn _].
      destruct (plain_word_inv _ Hn) as (c & w' & -> & Hall & _).
      destruct rest; exact Hbang. }
  rewrite (tokenize_join_words g sh _ Hw).
  destruct (plan_words_fields listing _ Hw) as (Ha & Hc & Hn & Hs).
  unfold execute. rewrite (last_arg_words _ _ _ Ha).
  assert (Hfa : final_argv (plan listing (name :: rest)) = map Some (name :: rest) ++ [None]).
  { unfold final_argv, nowait. now rewrite (last_arg_words _ _ _ Ha), Hamp, Ha. }
  rewrite Hfa, Hc, Hn. rewrite Ha at 1. cbn [map length Nat.eqb Nat.ltb Nat.leb app hd].
  now rewrite Hf.
Qed.

(** X14.  [cd dir] on a line of its own changes the working directory of the
    shell itself when [dir] is a directory, with status 0; otherwise the
    shell stays where it is and the status is 1.  Either way no process is
    created and the environment is untouched. *)
Theorem cd_line :
  forall is_directory username execvp signal_code g listing hist sched sh w dir,
    plain_word dir = true ->
    streq dir (cs "&") = false ->
    main_step (install_commands is_directory username) execvp signal_code g listing hist
      sched sh w (cs "cd " ++ dir) []
    = if is_directory dir
      then Returned 0 (set_last_ret 0 (set_cwd dir sh)) w
      else Returned 1 (set_last_ret 1 sh) w.
Proof.
  intros is_directory username execvp signal_code g listing hist sched sh w dir Hd Hamp.
  unfold main_step.
  change (cs "cd " ++ dir) with (join_words [cs "cd"; dir]).
  rewrite (builtin_line _ execvp signal_code g listing hist sched sh w (cs "cd") [dir]
             (shell_cmd_cd is_directory username)).
  - unfold shell_cmd_cd, chdir. cbn [length Nat.ltb Nat.leb map app nth].
    destruct (is_directory dir); reflexivity.
  - cbn [forallb]. now rewrite Hd.
  - reflexivity.
  - exact Hamp.
  - reflexivity.
Qed.

Lemma cd_line_witness :
  Demo.turn [] Demo.sh_c Demo.world (cs "cd /tmp")
  = Returned 0 (set_last_ret 0 (set_cwd (cs "/tmp") Demo.sh_c)) Demo.world.
Proof.
  exact (cd_line Demo.is_directory (cs "u") Demo.programs Demo.signal_code Demo.garbage
           Demo.listing [] [] Demo.sh_c Demo.world (cs "/tmp") eq_refl eq_refl).
Defined.

Lemma split_eq_name n v :
  strchr n "=" = false -> split_eq (n ++ "=" :: v) = Some (n, v).
Proof.
  induction n as [|c n IH]; intros H; [reflexivity|].
  cbn [strchr existsb] in H. apply orb_false_iff in H as [Hc Hn].
  cbn [app split_eq]. rewrite ceqb_sym, Hc. now rewrite (IH Hn).
Qed.

Lemma streq_sym a b : streq a b = streq b a.
Proof.
  apply eq_true_iff_eq. rewrite !streq_eq. split; intros H; now symmetry.
Qed.

Lemma getenv_setenv env n v m :
  getenv_in (setenv_in env n v) m
  = if streq n m then Some v else getenv_in env m.
Proof.
  induction env as [|[n' v'] env IH]; cbn [setenv_in getenv_in].
  - reflexivity.
  - destruct (streq n' n) eqn:E.
    + apply streq_eq in E. subst n'. cbn [getenv_in]. now destruct (streq n m).
    + cbn [getenv_in]. rewrite IH. destruct (streq n' m) eqn:E'; [|reflexivity].
      apply streq_eq in E'. subst n'. rewrite streq_sym in E. now rewrite E.
Qed.

(** X15.  [export NAME=value] on a line of its own sets the variable in the
    shell itself: afterwards [NAME] reads [value], every other name reads
    what it read before, the working directory is unchanged, no process is
    created and the status is 0. *)
Theorem export_line :
  forall is_directory username execvp signal_code g listing hist sched sh w n v,
    strchr n "=" = false ->
    plain_word (n ++ "=" :: v) = true ->
    exists sh',
      main_step (install_commands is_directory username) execvp signal_code g listing hist
        sched sh w (cs "export " ++ n ++ "=" :: v) [] = Returned 0 sh' w
      /\ getenv sh' n = Some v
      /\ (forall m, streq n m = false -> getenv sh' m = getenv sh m)
      /\ cwd sh' = cwd sh
      /\ last_ret sh' = 0%Z.
Proof.
  intros is_directory username execvp signal_code g listing hist sched sh w n v Hn Hp.
  unfold main_step.
  change (cs "export " ++ n ++ "=" :: v) with (join_words [cs "export"; n ++ "=" :: v]).
  rewrite (builtin_line _ execvp signal_code g listing hist sched sh w (cs "export")
             [n ++ "=" :: v] shell_cmd_export).
  - unfold shell_cmd_export, putenv. cbn [length Nat.ltb Nat.leb map app nth].
    rewrite (split_eq_name n v Hn). cbn [keep_status].
    change (int_of_uint32 0) with 0%Z. change (0 <=? 0)%Z with true. cbv iota.
    eexists. split; [reflexivity|]. unfold getenv. cbn [environ set_last_ret set_environ].
    split; [|split; [|split]]; try reflexivity.
    + now rewrite getenv_setenv, streq_refl.
    + intros m Hm. now rewrite getenv_setenv, Hm.
  - cbn [forallb]. now rewrite Hp.
  - reflexivity.
  - cbn [last]. destruct (streq (n ++ "=" :: v) (cs "&")) eqn:E; [|reflexivity].
    apply streq_eq in E. destruct n as [|c n]; [discriminate|].
    cbn [app] in E. injection E as -> E. destruct n; discriminate.
  - reflexivity.
Qed.

Lemma export_line_witness :
  exists sh',
    Demo.turn [] Demo.sh_c Demo.world (cs "export A=b") = Returned 0 sh' Demo.world
    /\ getenv sh' (cs "A") = Some (cs "b")
    /\ getenv sh' (cs "HOME") = Some (cs "/home/u").
Proof.
  destruct (export_line Demo.is_directory (cs "u") Demo.programs Demo.signal_code
              Demo.garbage Demo.listing [] [] Demo.sh_c Demo.world (cs "A") (cs "b")
              eq_refl eq_refl) as (sh' & Hx & Hg & Ho & _).
  exists sh'. split; [exact Hx|]. split; [exact Hg|].
  rewrite (Ho (cs "HOME") eq_refl). reflexivity.
Defined.

(** X16.  The shell is ended by a line only through a handler called in the
    shell itself: when [execute] ends the shell with a code, the pipeline has
    a single stage whose command has a handler and that handler called
    [exit] with this code.  [exit n] on a line of its own ends the shell with
    [atoi(n)]; in a pipeline of several stages no builtin can end it. *)
Theorem shell_ends_by_direct_exit :
  forall commands execvp signal_code sched ps sh w,
    (forall code,
        execute commands execvp signal_code sched ps sh w = ShellExit code ->
        cmdi ps = 0%nat
        /\ exists f, direct_builtin commands ps = Some f
                     /\ f (argcs ps 0%nat) (final_argv ps) sh = HExit code)
    /\ (forall is_directory username g listing hist n,
           plain_word n = true -> streq n (cs "&") = false ->
           shell_exec (install_commands is_directory username) execvp signal_code g listing
             hist sched sh w (cs "exit " ++ n) [] = ShellExit (atoi n)).
Proof.
  intros commands execvp signal_code sched ps sh w. split.
  - intros code H.
    destruct (direct_builtin commands ps) as [f|] eqn:Hb.
    + pose proof (direct_builtin_nonempty _ _ _ Hb) as Hn.
      unfold execute in H. unfold direct_builtin in Hb.
      destruct (Nat.eqb_spec (length (argv ps)) 0); [contradiction|].
      destruct (last_arg ps); [|discriminate].
      destruct (Nat.ltb_spec 0 (cmdi ps)); [discriminate|].
      destruct (hd None (final_argv ps)); [|discriminate].
      rewrite Hb in H. split; [lia|]. exists f. split; [reflexivity|].
      destruct (f (argcs ps 0%nat) (final_argv ps) sh); try discriminate.
      now injection H as ->.
    + exfalso. destruct (Nat.eq_dec (length (argv ps)) 0) as [E|E].
      * unfold execute in H. rewrite E in H. discriminate.
      * destruct (execute_spawns commands execvp signal_code sched ps sh w E Hb)
          as (pid & w1 & sp & _ & _ & _ & Hx); [rewrite H; discriminate|].
        rewrite Hx in H. unfold wait_children in H.
        destruct (negb (nowait ps)); [|discriminate].
        destruct (reap_loop _ _ _); discriminate.
  - intros is_directory username g listing hist n Hp Hamp.
    change (cs "exit " ++ n) with (join_words [cs "exit"; n]).
    rewrite (builtin_line _ execvp signal_code g listing hist sched sh w (cs "exit") [n]
               shell_cmd_exit).
    + reflexivity.
    + cbn [forallb]. now rewrite Hp.
    + reflexivity.
    + exact Hamp.
    + reflexivity.
Qed.

Lemma shell_ends_by_direct_exit_witness :
  shell_exec Demo.registry Demo.programs Demo.signal_code Demo.garbage Demo.listing []
    [] Demo.sh_c Demo.world (cs "exit 4") [] = ShellExit 4
  /\ shell_exec Demo.registry Demo.programs Demo.signal_code Demo.garbage Demo.listing []
       [] Demo.sh_c Demo.world (cs "exit 4294967297") [] = ShellExit 1
  /\ shell_exec Demo.registry Demo.programs Demo.signal_code Demo.garbage Demo.listing []
       [] Demo.sh_c Demo.world (cs "exit " ++ ["009"; "7"]) [] = ShellExit 7.
Proof.
  split; [|split].
  - exact (proj2 (shell_ends_by_direct_exit Demo.registry Demo.programs Demo.signal_code
                    [] plan_init Demo.sh_c Demo.world)
             Demo.is_directory (cs "u") Demo.garbage Demo.listing [] (cs "4")
             eq_refl eq_refl).
  - exact (proj2 (shell_ends_by_direct_exit Demo.registry Demo.programs Demo.signal_code
                    [] plan_init Demo.sh_c Demo.world)
             Demo.is_directory (cs "u") Demo.garbage Demo.listing [] (cs "4294967297")
             eq_refl eq_refl).
  - exact (proj2 (shell_ends_by_direct_exit Demo.registry Demo.programs Demo.signal_code
                    [] plan_init Demo.sh_c Demo.world)
             Demo.is_directory (cs "u") Demo.garbage Demo.listing [] ["009"; "7"]
             eq_refl eq_refl).
Defined.

(** X17.  After a pipeline that forks has been run, in the foreground or in
    the background, the terminal belongs to the process group of the shell
    again; after a foreground wait no child is tracked for signal forwarding
    and no child is left; the shell's own state is otherwise untouched. *)
Theorem terminal_returns_to_shell :
  forall commands execvp signal_code sched ps sh w ret sh' w',
    length (argv ps) <> 0%nat ->
    direct_builtin commands ps = None ->
    execute commands execvp signal_code sched ps sh w = Returned ret sh' w' ->
    w_tty_pgrp w' = w_shell_pid w
    /\ w_shell_pid w' = w_shell_pid w
    /\ sh' = (if nowait ps then sh else set_child 0 sh)
    /\ (nowait ps = false -> child sh' = 0%Z /\ w_children w' = []).
Proof.
  intros commands execvp signal_code sched ps sh w ret sh' w' Hn Hb H.
  destruct (execute_spawns commands execvp signal_code sched ps sh w Hn Hb)
    as (pid & w1 & sp & _ & _ & Hp & Hx); [rewrite H; discriminate|].
  rewrite Hx in H. destruct (nowait ps).
  - unfold wait_children in H. cbn [negb] in H. injection H as _ <- <-.
    cbn [tcsetpgrp w_tty_pgrp w_shell_pid].
    split; [exact Hp|]. split; [exact Hp|]. split; [reflexivity|discriminate].
  - rewrite wait_children_foreground in H. injection H as _ <- <-.
    cbn [tcsetpgrp set_children w_tty_pgrp w_shell_pid w_children set_child child].
    split; [exact Hp|]. split; [exact Hp|]. split; [reflexivity|].
    intros _. split; reflexivity.
Qed.

Lemma terminal_returns_to_shell_witness :
  exists ret sh' w',
    execute Demo.registry Demo.programs Demo.signal_code []
      (plan Demo.listing [cs "sleep"; cs "5"; cs "&"]) Demo.sh_c Demo.world
    = Returned ret sh' w'
    /\ w_tty_pgrp w' = 1%Z.
Proof.
  destruct (execute Demo.registry Demo.programs Demo.signal_code []
              (plan Demo.listing [cs "sleep"; cs "5"; cs "&"]) Demo.sh_c Demo.world)
    as [ret sh' w'| | |] eqn:E; try (vm_compute in E; discriminate E).
  exists ret, sh', w'. split; [reflexivity|].
  destruct (terminal_returns_to_shell Demo.registry Demo.programs Demo.signal_code []
              (plan Demo.listing [cs "sleep"; cs "5"; cs "&"]) Demo.sh_c Demo.world
              ret sh' w') as (Ht & _).
  - vm_compute; discriminate.
  - reflexivity.
  - exact E.
  - exact Ht.
Defined.

(** ** The prompt *)

(** X18.  The prompt shows the working directory with the home directory at
    its head written as a tilde, when the home directory is followed by a
    slash or is the whole path; a directory that merely begins with the same
    characters ([/home/user2] for the home [/home/user]) is shown in full, as
    is every directory when [HOME] is not set. *)
Theorem prompt_abbreviates_home :
  forall home cwd,
    (forall rest, rest = [] \/ hd NUL rest = "/" ->
                  prompt_cwd (Some home) (home ++ rest) = "~" :: rest)
    /\ (forall c rest, ceqb c "/" = false -> ceqb c NUL = false ->
                       prompt_cwd (Some home) (home ++ c :: rest) = home ++ c :: rest)
    /\ (starts_with cwd home = false -> prompt_cwd (Some home) cwd = cwd)
    /\ prompt_cwd None cwd = cwd.
Proof.
  intros home cwd.
  assert (Hs : forall rest, starts_with (home ++ rest) home = true)
    by (intros rest; apply starts_with_app; now exists rest).
  assert (Hk : forall rest, skipn (length home) (home ++ rest) = rest)
    by (intros rest; now rewrite skipn_app, skipn_all, Nat.sub_diag).
  split; [|split; [|split]].
  - intros rest Hr. unfold prompt_cwd. rewrite Hs, Hk.
    destruct Hr as [->|Hr]; [reflexivity|]. rewrite Hr. reflexivity.
  - intros c rest H1 H2. unfold prompt_cwd. rewrite Hs, Hk. cbn [hd].
    now rewrite H1, H2.
  - intros H. unfold prompt_cwd. now rewrite H.
  - reflexivity.
Qed.

Lemma prompt_abbreviates_home_witness :
  prompt_cwd (Some (cs "/home/u")) (cs "/home/u/src") = cs "~/src"
  /\ prompt_cwd (Some (cs "/home/u")) (cs "/home/u2") = cs "/home/u2".
Proof.
  destruct (prompt_abbreviates_home (cs "/home/u") []) as (H1 & H2 & _).
  split.
  - apply (H1 (cs "/src")). now right.
  - apply (H2 "2" []); reflexivity.
Defined.

(** ** Completion *)

Lemma skipn_cons_inv {A : Type} (l : list A) : forall j d r x,
  skipn j l = d :: r ->
  skipn (S j) l = r /\ nth j l x = d /\ (j < length l)%nat.
Proof.
  induction l as [|y l IH]; intros j d r x H.
  - destruct j; discriminate.
  - destruct j as [|j].
    + cbn [skipn] in H. injection H as -> ->. cbn. repeat split. lia.
    + cbn [skipn] in H. destruct (IH j d r x H) as (H1 & H2 & H3).
      cbn [length nth]. repeat split; [exact H1|exact H2|lia].
Qed.

Lemma firstn_succ_nth {A : Type} (l : list A) : forall j x,
  (j < length l)%nat -> firstn (S j) l = firstn j l ++ [nth j l x].
Proof.
  induction l as [|y l IH]; intros j x H; [cbn in H; lia|].
  destruct j as [|j]; [reflexivity|].
  cbn [firstn nth app]. f_equal. apply IH. cbn [length] in H. lia.
Qed.

Lemma nth_not_default {A : Type} (l : list A) j d : nth j l d <> d -> (j < length l)%nat.
Proof.
  intros H. destruct (Nat.lt_ge_cases j (length l)) as [Hl|Hl]; [exact Hl|].
  now rewrite nth_overflow in H.
Qed.

Lemma common_extent_spec matches match_ requested :
  In match_ matches ->
  forall rest j,
    skipn j match_ = rest ->
    (j <= length match_)%nat ->
    (forall m, In m matches -> firstn j m = firstn j match_ /\ (j <= length m)%nat) ->
    let j' := common_extent rest matches j requested in
    (j <= j' <= length match_)%nat
    /\ (forall m, In m matches -> firstn j' m = firstn j' match_ /\ (j' <= length m)%nat)
    /\ ((requested <= j')%nat
        \/ exists m, In m matches
                     /\ (nth j' m NUL <> nth j' match_ NUL \/ nth j' m NUL = NUL)).
Proof.
  intros Hin rest. induction rest as [|d rest IH]; intros j Hs Hj Hall.
  - cbn [common_extent]. split; [lia|]. split; [exact Hall|].
    right. exists match_. split; [exact Hin|]. right.
    apply nth_overflow.
    apply (f_equal (@length ascii)) in Hs. rewrite length_skipn in Hs.
    cbn [length] in Hs. lia.
  - destruct (skipn_cons_inv match_ j d rest NUL Hs) as (Hs' & Hd & Hlt).
    cbn [common_extent].
    destruct (existsb _ matches) eqn:E.
    + split; [lia|]. split; [exact Hall|]. right.
      apply existsb_exists in E as (m & Hm & Hc). exists m. split; [exact Hm|].
      apply orb_true_iff in Hc as [Hc|Hc].
      * left. apply negb_true_iff in Hc. rewrite Hd. intros Heq.
        rewrite Heq in Hc. unfold ceqb in Hc. now rewrite Ascii.eqb_refl in Hc.
      * right. now apply ceqb_eq.
    + assert (Hstep : forall m, In m matches ->
                                firstn (S j) m = firstn (S j) match_
                                /\ (S j <= length m)%nat).
      { intros m Hm. destruct (Hall m Hm) as [Hf Hl].
        assert (Hc : negb (ceqb (nth j m NUL) d) || ceqb (nth j m NUL) NUL = false).
        { destruct (negb (ceqb (nth j m NUL) d) || ceqb (nth j m NUL) NUL) eqn:Ec;
            [|reflexivity].
          assert (existsb (fun m => negb (ceqb (nth j m NUL) d)
                                    || ceqb (nth j m NUL) NUL) matches = true)
            by (apply existsb_exists; now exists m).
          congruence. }
        apply orb_false_iff in Hc as [Hc1 Hc2]. apply negb_false_iff, ceqb_eq in Hc1.
        assert (Hlm : (j < length m)%nat).
        { apply (nth_not_default m j NUL). intros Hn. rewrite Hn in Hc2.
          unfold ceqb in Hc2. now rewrite Ascii.eqb_refl in Hc2. }
        split; [|lia].
        rewrite (firstn_succ_nth m j NUL Hlm), (firstn_succ_nth match_ j NUL Hlt).
        now rewrite Hf, Hc1, Hd. }
      destruct (Nat.ltb_spec (S j) requested) as [Hr|Hr].
      * destruct (IH (S j) Hs' Hlt Hstep) as (Hb & Ha & Hmax).
        split; [lia|]. split; [exact Ha|exact Hmax].
      * split; [lia|]. split; [exact Hstep|]. now left.
Qed.

Lemma starts_with_firstn m prefix :
  starts_with m prefix = true ->
  firstn (length prefix) m = prefix /\ (length prefix <= length m)%nat.
Proof.
  intros H. apply starts_with_app in H as [r ->].
  rewrite firstn_app, firstn_all, Nat.sub_diag, length_app. cbn [firstn].
  rewrite app_nil_r. split; [reflexivity|lia].
Qed.

Lemma last_in {A : Type} (l : list A) d : l <> [] -> In (last l d) l.
Proof.
  intros H. destruct (exists_last H) as (l' & x & ->).
  rewrite last_last. apply in_or_app. right. now left.
Qed.

(** X19.  Completing a command name.  With a single candidate the text
    inserted completes the prefix to that candidate.  With several candidates
    and a first press of the key, either nothing is inserted and the key is
    remembered, or the text inserted after the prefix is shared by every
    candidate; a second press lists the candidates.  Nothing is ever inserted
    that some candidate does not have. *)
Theorem command_completion_inserts_shared_text :
  forall commands prefix word no_space requested,
    let matches := command_matches commands prefix in
    let match_ := last matches [] in
    let wo := length prefix in
    (forall m, matches = [m] ->
               exists texts,
                 finish_completion matches match_ word wo no_space requested false
                 = Insert texts
                 /\ prefix ++ hd [] texts = m)
    /\ ((1 < length matches)%nat ->
        finish_completion matches match_ word wo no_space requested true
        = ListMatches matches
        /\ (finish_completion matches match_ word wo no_space requested false = SetTabbed
            \/ exists t,
                finish_completion matches match_ word wo no_space requested false
                = Insert [t]
                /\ t <> []
                /\ forall m, In m matches -> starts_with m (prefix ++ t) = true))
    /\ (matches = [] ->
        finish_completion matches match_ word wo no_space requested false = NoCompletion).
Proof.
  intros commands prefix word no_space requested matches match_ wo.
  assert (Hpre : forall m, In m matches -> starts_with m prefix = true).
  { intros m Hm. unfold matches, command_matches in Hm.
    now apply filter_In in Hm as [_ Hm]. }
  split; [|split].
  - intros m Hm. unfold match_. rewrite Hm. cbn [last].
    assert (Hs : starts_with m prefix = true) by (apply Hpre; rewrite Hm; now left).
    apply starts_with_app in Hs as [r Hr].
    assert (Hk : skipn wo m = r)
      by (unfold wo; now rewrite Hr, skipn_app, skipn_all, Nat.sub_diag).
    unfold finish_completion. cbn [length Nat.eqb]. rewrite Hk.
    destruct word as [w|].
    + destruct ((wo =? length w)%nat && negb no_space); eexists; split;
        try reflexivity; cbn [hd]; now symmetry.
    + eexists; split; [reflexivity|]. cbn [hd]. now symmetry.
  - intros Hlen. unfold finish_completion.
    destruct (Nat.eqb_spec (length matches) 1) as [E|_]; [lia|].
    apply Nat.ltb_lt in Hlen as Hlt. rewrite Hlt. cbn [negb].
    split; [reflexivity|].
    assert (Hne : matches <> []) by (intros E; rewrite E in Hlen; cbn in Hlen; lia).
    pose proof (last_in matches [] Hne) as Hin. fold match_ in Hin.
    destruct (starts_with_firstn _ _ (Hpre _ Hin)) as [Hfm Hlm]. fold wo in Hfm, Hlm.
    destruct (common_extent_spec matches match_ requested Hin
                (skipn wo match_) wo eq_refl Hlm) as ((Hlo & Hhi) & Hall & _).
    { intros m Hm. destruct (starts_with_firstn _ _ (Hpre _ Hm)) as [Hf Hl].
      fold wo in Hf, Hl. split; [now rewrite Hf, Hfm|exact Hl]. }
    set (j := common_extent (skipn wo match_) matches wo requested) in *.
    destruct (Nat.ltb_spec wo j) as [Hj|Hj]; [|now left].
    right. eexists. split; [reflexivity|]. split.
    + intros E. apply (f_equal (@length ascii)) in E.
      rewrite length_firstn, length_skipn in E. cbn [length] in E. lia.
    + intros m Hm. destruct (Hall m Hm) as [Hf Hl].
      apply starts_with_app. exists (skipn j m).
      rewrite <- (firstn_skipn j m) at 1. f_equal. rewrite Hf.
      rewrite <- (firstn_skipn wo match_) at 1.
      rewrite firstn_app, length_firstn.
      replace (Nat.min wo (length match_)) with wo by lia.
      rewrite firstn_firstn. replace (Nat.min j wo) with wo by lia.
      now rewrite Hfm.
  - intros E. unfold finish_completion. rewrite E. reflexivity.
Qed.

Lemma command_completion_inserts_shared_text_witness :
  exists t,
    finish_completion (command_matches Demo.registry (cs "e"))
      (last (command_matches Demo.registry (cs "e")) []) (Some (cs "e"))
      (length (cs "e")) false 80 false = Insert [t]
    /\ t = cs "x"
    /\ forall m, In m (command_matches Demo.registry (cs "e")) ->
                 starts_with m (cs "e" ++ t) = true.
Proof.
  destruct (command_completion_inserts_shared_text Demo.registry (cs "e")
              (Some (cs "e")) false 80) as (_ & H & _).
  destruct H as [_ [H|(t & Ht & _ & Hall)]].
  - vm_compute. lia.
  - vm_compute in H. discriminate H.
  - exists t. split; [exact Ht|]. split; [|exact Hall].
    vm_compute in Ht. injection Ht as <-. reflexivity.
Defined.

(** ** Backslash *)

Lemma lex_scan_escape g sh f b hs a c rest :
  escapable c = true ->
  lex_scan g (S (S f)) sh (word_state b hs a) ("\" :: c :: rest)
  = lex_scan g f sh (word_state (b ++ [c]) hs a) rest.
Proof.
  intros H. unfold escapable in H.
  repeat (apply orb_true_iff in H as [H|H]); apply ceqb_eq in H; subst c; reflexivity.
Qed.

Lemma lex_scan_backslash_plain g sh f b hs a c rest :
  plain_char c = true ->
  lex_scan g (S (S f)) sh (word_state b hs a) ("\" :: c :: rest)
  = lex_scan g f sh (word_state (b ++ ["\"; c]) hs a) rest.
Proof.
  intros H. destruct (plain_char_inv c H) as (H1 & H2 & H3 & H4 & H5 & H6 & H7 & H8 & H9 & H10 & _).
  cbn [lex_scan]. 
  change (lex_char g sh (word_state b hs a) "\" (c :: rest))
    with (Jnext (set_backtick true (word_state b hs a))).
  cbv iota. unfold lex_char.
  rewrite H1, H2, H3, H4, H5, H6, H7, H8, H9, H10.
  cbn [backtick set_backtick word_state]. unfold just_add, set_buffer, set_backtick, word_state.
  cbn [buffer_ quoted have_star args backtick]. now rewrite <- app_assoc.
Qed.

Lemma one_word b :
  b <> [] ->
  (if collected (word_state b false [])
   then LexArgs (args (add_argument (word_state b false [])))
   else LexArgs (args (word_state b false [])))
  = LexArgs [b].
Proof. intros H. destruct b; [congruence|reflexivity]. Qed.

(** X20.  Outside quotes a backslash takes the meaning away from the
    character after it: an escaped dollar sign, star, space, bar, angle
    bracket, hash mark or backslash is put in the word as an ordinary
    character and the backslash is dropped.  Before a character that has no
    meaning of its own the backslash stays in the word. *)
Theorem backslash_escapes :
  forall g sh w1 c w2,
    forallb plain_char w1 = true ->
    forallb plain_char w2 = true ->
    (escapable c = true ->
     tokenize g sh (w1 ++ "\" :: c :: w2) [] = LexArgs [w1 ++ c :: w2])
    /\ (plain_char c = true ->
        tokenize g sh (w1 ++ "\" :: c :: w2) [] = LexArgs [w1 ++ "\" :: c :: w2]).
Proof.
  intros g sh w1 c w2 H1 H2.
  assert (Hf : S (length (w1 ++ "\" :: c :: w2))
               = (length w1 + S (S (length w2 + 1)))%nat)
    by (rewrite length_app; cbn [length]; lia).
  split; intros Hc; unfold tokenize, lex_lines, scan_line;
    change lex_init with (word_state [] false []); rewrite Hf;
    rewrite (lex_scan_plain g sh w1 _ [] false [] _ H1); cbn [app].
  - rewrite (lex_scan_escape g sh _ w1 false [] c w2 Hc).
    rewrite (lex_scan_plain_end g sh w2 _ false [] H2).
    cbn [quoted word_state quote_eqb negb]. rewrite <- app_assoc. cbn [app].
    apply one_word. now destruct w1.
  - rewrite (lex_scan_backslash_plain g sh _ w1 false [] c w2 Hc).
    rewrite (lex_scan_plain_end g sh w2 _ false [] H2).
    cbn [quoted word_state quote_eqb negb]. rewrite <- app_assoc. cbn [app].
    apply one_word. now destruct w1.
Qed.

Lemma backslash_escapes_witness :
  tokenize [] Demo.sh_c (cs "a\ b") [] = LexArgs [cs "a b"]
  /\ tokenize [] Demo.sh_c (cs "a\nb") [] = LexArgs [cs "a\nb"].
Proof.
  destruct (backslash_escapes [] Demo.sh_c (cs "a") " " (cs "b") eq_refl eq_refl)
    as [H1 _].
  destruct (backslash_escapes [] Demo.sh_c (cs "a") "n" (cs "b") eq_refl eq_refl)
    as [_ H2].
  split; [apply H1|apply H2]; reflexivity.
Defined.

(** ** Recalling a line *)


